(** * tools/dfu.py: sector planning and the erase/flash sequences

    A shallow embedding of [tools/dfu.py], the host-side tool that flashes a
    firmware image through the STM32 DfuSe bootloader.

    - Python [str] values are lists of ASCII characters, Python [int] values
      are [Z].
    - The generator [load_sectors] becomes a function returning the list of
      sectors it yields together with the way it stops (normally, or with the
      exception that ends the iteration).
    - The image file (the third-party [IntelHex] object) and the device (the
      [dfuse.DfuDevice] object) are interfaces: records of the methods the
      tool calls.
    - [erase], [flash] and [set_alternate_safe] run in a small monad that
      threads the device state, records every method call with its answer and
      propagates exceptions. *)

From Stdlib Require Import Ascii String QArith ZArith Bool Lia List.
From Stdlib Require Import Sorted.
Import ListNotations.
Open Scope Z_scope.

(** ** Python strings *)

Module PyStr.

Definition str := list ascii.

(** A literal. *)
Definition py (s : string) : str := list_ascii_of_string s.

(** [s.split(sep)] with a one-character separator: n occurrences of the
    separator give n+1 pieces, so the result is never empty. *)
Fixpoint split (sep : ascii) (s : str) : list str :=
  match s with
  | [] => [[]]
  | c :: r =>
      if Ascii.eqb c sep then [] :: split sep r
      else match split sep r with
           | h :: t => (c :: h) :: t
           | [] => [[c]]
           end
  end.

(** [sep.join(pieces)], the inverse of [split]. *)
Fixpoint join (sep : ascii) (l : list str) : str :=
  match l with
  | [] => []
  | [x] => x
  | x :: r => x ++ sep :: join sep r
  end.

(** [s[:-2]]: everything but the last two characters. *)
Definition slice_to_m2 (s : str) : str := firstn (length s - 2) s.

(** [s[-k]] for k >= 1: [None] stands for IndexError. *)
Definition index_neg (k : nat) (s : str) : option ascii :=
  if (length s <? k)%nat then None else nth_error s (length s - k).

(** [c.upper()] on ASCII: the letters a..z move to A..Z. *)
Definition upper (c : ascii) : ascii :=
  let n := nat_of_ascii c in
  if ((97 <=? n) && (n <=? 122))%nat then ascii_of_nat (n - 32) else c.

(** Whitespace skipped by [int()] around the literal (C's isspace). *)
Definition is_space (c : ascii) : bool :=
  let n := nat_of_ascii c in
  ((9 <=? n) && (n <=? 13) || (n =? 32))%nat.

Fixpoint lstrip (s : str) : str :=
  match s with
  | c :: r => if is_space c then lstrip r else s
  | [] => []
  end.

Definition strip (s : str) : str := rev (lstrip (rev (lstrip s))).

(** Value of a character as a digit, 0..35. *)
Definition digit_val (c : ascii) : option Z :=
  let n := nat_of_ascii c in
  if ((48 <=? n) && (n <=? 57))%nat then Some (Z.of_nat (n - 48))
  else if ((97 <=? n) && (n <=? 122))%nat then Some (Z.of_nat (n - 87))
  else if ((65 <=? n) && (n <=? 90))%nat then Some (Z.of_nat (n - 55))
  else None.

Definition underscore : ascii := "_"%char.

(** Digits of the given base, single underscores allowed between digits.
    [prev_us] tells that the previous character was an underscore. *)
Fixpoint digits_loop (base acc : Z) (prev_us : bool) (s : str) : option Z :=
  match s with
  | [] => if prev_us then None else Some acc
  | c :: r =>
      if Ascii.eqb c underscore then
        if prev_us then None else digits_loop base acc true r
      else
        match digit_val c with
        | Some d =>
            if d <? base then digits_loop base (acc * base + d) false r
            else None
        | None => None
        end
  end.

(** The digit string of a literal: not empty, no leading underscore. *)
Definition digits (base : Z) (s : str) : option Z :=
  match s with
  | [] => None
  | c :: _ => if Ascii.eqb c underscore then None
              else digits_loop base 0 false s
  end.

(** An optional sign in front of [body]. *)
Definition signed (body : str -> option Z) (s : str) : option Z :=
  match s with
  | c :: r =>
      if Ascii.eqb c "+" then body r
      else if Ascii.eqb c "-" then option_map Z.opp (body r)
      else body s
  | [] => body s
  end.

(** [int(s)]: base 10.  [None] stands for ValueError.  (The interpreter's
    optional limit on the number of digits of a literal is not modelled.) *)
Definition int10 (s : str) : option Z := signed (digits 10) (strip s).

(** After a base prefix one underscore may precede the digits. *)
Definition prefixed (base : Z) (r : str) : option Z :=
  match r with
  | c :: r' => if Ascii.eqb c underscore then digits base r' else digits base r
  | [] => None
  end.

(** The unsigned part of a base-0 literal: 0x, 0o and 0b prefixes select the
    base; a decimal literal with a leading zero must be zero. *)
Definition literal0 (s : str) : option Z :=
  match s with
  | "0"%char :: c :: r =>
      if Ascii.eqb c "x" || Ascii.eqb c "X" then prefixed 16 r
      else if Ascii.eqb c "o" || Ascii.eqb c "O" then prefixed 8 r
      else if Ascii.eqb c "b" || Ascii.eqb c "B" then prefixed 2 r
      else match digits 10 s with
           | Some 0 => Some 0
           | _ => None
           end
  | _ => digits 10 s
  end.

(** [int(s, 0)]. *)
Definition int0 (s : str) : option Z := signed literal0 (strip s).

End PyStr.
Import PyStr.

(** ** The image file

    [hexfile] is an [IntelHex] object of the third-party intelhex package.
    The tool calls two of its methods; [content] is the image itself, the
    address-to-byte dictionary the object holds. *)

Record HexFile := {
  segments : list (Z * Z);          (* [hexfile.segments()]: [(start, end)], end exclusive *)
  tobinarray : Z -> Z -> list Z;    (* [hexfile.tobinarray(start, end)], end inclusive *)
  content : Z -> option Z           (* the byte stored at an address, if any *)
}.

(** The addresses [start, start+1, ..., start+n-1]. *)
Definition zrange (start : Z) (n : nat) : list Z :=
  map (fun i => start + Z.of_nat i) (seq 0 n).

(** The fill value of addresses without data (the note at the end of the
    source: "this script fills undefined sections with 0xff"). *)
Definition PAD : Z := 255.

Definition padded (c : Z -> option Z) (a : Z) : Z :=
  match c a with Some b => b | None => PAD end.

(** What the tool relies on: the segments are the non-empty runs of populated
    addresses, and reading an address range gives one byte per address, the
    fill value where the image has none. *)
Record HexFile_ok (h : HexFile) : Prop := {
  segments_nonempty : forall s e, In (s, e) (segments h) -> s < e;
  segments_content : forall a,
      content h a <> None <->
      exists s e, In (s, e) (segments h) /\ s <= a < e;
  tobinarray_range : forall s e, s <= e ->
      tobinarray h s e = map (padded (content h)) (zrange s (Z.to_nat (e - s + 1)))
}.

(** ** Planning: [load_sectors] *)

Definition SIZE_MULTIPLIERS (c : ascii) : option Z :=
  if Ascii.eqb c " " then Some 1
  else if Ascii.eqb c "K" then Some 1024
  else if Ascii.eqb c "M" then Some (1024 * 1024)
  else None.

Definition TRANSFER_SIZE : nat := 2048.

(** The exceptions that can end the iteration of [load_sectors]. *)
Inductive PyExn := ValueError | KeyError (key : ascii) | IndexError.

(** The dict yielded for a touched sector. *)
Record Sector := {
  alt : Z;
  addr : Z;
  data : list Z
}.

(** Lines 39-41: one entry of the layout, [repeat*sizeUnitMode].
    Unpacking [map(int, ...)] into two names raises ValueError unless the
    text before the last two characters has exactly two [*]-separated
    pieces, both accepted by [int]. *)
Definition parse_sector (sector : str) : PyExn + (Z * Z * ascii) :=
  match map int10 (split "*" (slice_to_m2 sector)) with
  | [Some repeat; Some size] =>
      match index_neg 2 sector, index_neg 1 sector with
      | Some u, Some mode =>
          match SIZE_MULTIPLIERS (upper u) with
          | Some m => inr (repeat, size * m, mode)
          | None => inl (KeyError (upper u))
          end
      | _, _ => inl IndexError
      end
  | _ => inl ValueError
  end.

(** Lines 45-52: the overlap test of one sector against the segments. *)
Fixpoint touched (segs : list (Z * Z)) (addr size : Z) : bool :=
  match segs with
  | [] => false
  | (start, end_) :: rest =>
      if (start <? addr) && (end_ >? addr) then true
      else if (start >=? addr) && (start <? addr + size) then true
      else touched rest addr size
  end.

(** Lines 43-63: the [while repeat > 0] loop.  Returns the yielded sectors
    and the address cursor after the loop. *)
Fixpoint repeat_loop (h : HexFile) (alt : Z) (repeat : nat) (addr size : Z)
  : list Sector * Z :=
  match repeat with
  | O => ([], addr)
  | S repeat' =>
      let yielded :=
        if touched (segments h) addr size
        then [{| alt := alt; addr := addr;
                 data := tobinarray h addr (addr + size - 1) |}]
        else [] in
      let (rest, addr') := repeat_loop h alt repeat' (addr + size) size in
      (yielded ++ rest, addr')
  end.

(** Lines 38-63: the loop over the entries of one layout.  Stops at the
    first entry that fails to parse, after the sectors yielded so far. *)
Fixpoint layout_loop (h : HexFile) (alt : Z) (layout : list str) (addr : Z)
  : list Sector * option PyExn :=
  match layout with
  | [] => ([], None)
  | sector :: rest =>
      match parse_sector sector with
      | inl e => ([], Some e)
      | inr (repeat, size, mode) =>
          let (ys, addr') := repeat_loop h alt (Z.to_nat repeat) addr size in
          let (zs, r) := layout_loop h alt rest addr' in
          (ys ++ zs, r)
      end
  end.

(** Lines 32-63: [load_sectors(dfudev, hexfile)], with [alternates] the list
    [dfudev.alternates()] of (name, alt) pairs.  The result is the list of
    yielded sectors and the exception ending the iteration, if any. *)
Fixpoint load_sectors (alternates : list (str * Z)) (h : HexFile)
  : list Sector * option PyExn :=
  match alternates with
  | [] => ([], None)
  | (name, alt) :: rest =>
      match split "/" name with
      | [label; addr; layout] =>
          match int0 addr with
          | Some addr =>
              let (ys, r) := layout_loop h alt (split "," layout) addr in
              match r with
              | Some e => (ys, Some e)
              | None =>
                  let (zs, r') := load_sectors rest h in (ys ++ zs, r')
              end
          | None => ([], Some ValueError)
          end
      | _ => ([], Some ValueError)
      end
  end.

(** *** The sectors the cursor visits

    The same walk, recording every sector the cursor passes (touched or
    not) as (alt, addr, size). *)

Definition Cell : Type := Z * Z * Z.

Definition cell_alt (c : Cell) : Z := fst (fst c).
Definition cell_addr (c : Cell) : Z := snd (fst c).
Definition cell_size (c : Cell) : Z := snd c.

Fixpoint repeat_cells (alt : Z) (repeat : nat) (addr size : Z) : list Cell * Z :=
  match repeat with
  | O => ([], addr)
  | S repeat' =>
      let (rest, addr') := repeat_cells alt repeat' (addr + size) size in
      ((alt, addr, size) :: rest, addr')
  end.

Fixpoint layout_cells (alt : Z) (layout : list str) (addr : Z)
  : list Cell * option PyExn :=
  match layout with
  | [] => ([], None)
  | sector :: rest =>
      match parse_sector sector with
      | inl e => ([], Some e)
      | inr (repeat, size, mode) =>
          let (ys, addr') := repeat_cells alt (Z.to_nat repeat) addr size in
          let (zs, r) := layout_cells alt rest addr' in
          (ys ++ zs, r)
      end
  end.

(** The sectors of one descriptor string, when its three fields and its
    address parse. *)
Definition descriptor_cells (name : str) (alt : Z) : option (list Cell * option PyExn) :=
  match split "/" name with
  | [label; addr; layout] =>
      match int0 addr with
      | Some addr => Some (layout_cells alt (split "," layout) addr)
      | None => None
      end
  | _ => None
  end.

Fixpoint cells (alternates : list (str * Z)) : list Cell * option PyExn :=
  match alternates with
  | [] => ([], None)
  | (name, alt) :: rest =>
      match descriptor_cells name alt with
      | Some (ys, Some e) => (ys, Some e)
      | Some (ys, None) => let (zs, r) := cells rest in (ys ++ zs, r)
      | None => ([], Some ValueError)
      end
  end.

(** What [load_sectors] yields at a visited sector. *)
Definition plan (h : HexFile) (c : Cell) : list Sector :=
  if touched (segments h) (cell_addr c) (cell_size c)
  then [{| alt := cell_alt c; addr := cell_addr c;
           data := tobinarray h (cell_addr c) (cell_addr c + cell_size c - 1) |}]
  else [].

(** ** The device

    [dfudev] is a [dfuse.DfuDevice]; the dfuse package is not part of
    [tools/dfu.py], so the device is an interface here. *)

(** Modelled from the spec: the device-reported states (section 4.3): IDLE,
    DOWNLOAD_BUSY, DOWNLOAD_IDLE, MANIFEST_SYNC, MANIFEST, ERROR, "plus
    additional states not exercised by this workflow, passed through
    opaquely". *)
Inductive DfuState :=
| DFU_IDLE
| DFU_DOWNLOAD_BUSY
| DFU_DOWNLOAD_IDLE
| DFU_MANIFEST_SYNC
| DFU_MANIFEST
| DFU_ERROR
| DFU_OTHER (n : Z).

Definition state_eqb (a b : DfuState) : bool :=
  match a, b with
  | DFU_IDLE, DFU_IDLE
  | DFU_DOWNLOAD_BUSY, DFU_DOWNLOAD_BUSY
  | DFU_DOWNLOAD_IDLE, DFU_DOWNLOAD_IDLE
  | DFU_MANIFEST_SYNC, DFU_MANIFEST_SYNC
  | DFU_MANIFEST, DFU_MANIFEST
  | DFU_ERROR, DFU_ERROR => true
  | DFU_OTHER n, DFU_OTHER m => n =? m
  | _, _ => false
  end.

(** Modelled from the spec: DeviceStatus, "{state enum, poll-wait-time,
    status code}"; the tool reads the state as [status[1]]. *)
Record DeviceStatus := {
  st_code : Z;
  st_state : DfuState;
  st_poll : Z
}.

(** Exceptions of the device side: the RuntimeError the tool means to raise
    with the observed status, the TypeError of a failed string formatting,
    and what a device method may raise. *)
Inductive Exn :=
| RuntimeError (status : DeviceStatus)
| TimeoutError
| TransportError (errno : Z)
| TypeError.

Definition Res (A : Type) : Type := Exn + A.

(** The status is the tuple [dfuse] returns; the tool reads [status[1]], so
    the tuple has more than one element (three in the model above). *)
Definition status_arity (status : DeviceStatus) : nat := 3.

(** [format % args] with a tuple [args]: the elements of the tuple are the
    arguments of the format, and the operator succeeds only when there are
    as many arguments as conversions; otherwise it raises TypeError. *)
Definition percent_format (conversions arguments : nat) : bool :=
  Nat.eqb conversions arguments.

(** Lines 78, 88 and 98:
    [raise RuntimeError("An error occured. Device Status: %r" % status)].
    The message is evaluated first; it has one conversion and the status
    tuple has several elements, so the formatting raises TypeError and the
    RuntimeError is never constructed. *)
Definition status_error (status : DeviceStatus) : Exn :=
  if percent_format 1 (status_arity status) then RuntimeError status
  else TypeError.

(** The methods of [dfudev] the tool calls, over a device state [D]. *)
Record DfuDevice (D : Type) := {
  dev_set_alternate : Z -> D -> Res unit * D;
  dev_get_state : D -> Res DfuState * D;
  dev_clear_status : D -> Res unit * D;
  dev_wait_while_state : DfuState -> option Q -> D -> Res DeviceStatus * D;
  dev_erase : Z -> D -> Res unit * D;
  dev_set_address : Z -> D -> Res unit * D;
  dev_write : nat -> list Z -> D -> Res unit * D
}.
Arguments dev_set_alternate {D}.
Arguments dev_get_state {D}.
Arguments dev_clear_status {D}.
Arguments dev_wait_while_state {D}.
Arguments dev_erase {D}.
Arguments dev_set_address {D}.
Arguments dev_write {D}.

(** A method call and its answer, as recorded in the transcript of a run. *)
Inductive Cmd :=
| CSetAlternate (alt : Z)
| CGetState
| CClearStatus
| CWait (s : DfuState) (timeout : option Q)
| CErase (a : Z)
| CSetAddress (a : Z)
| CWrite (blocknum : nat) (block : list Z).

Inductive Answer :=
| Raised (e : Exn)
| Returned
| ReturnedState (s : DfuState)
| ReturnedStatus (status : DeviceStatus).

Definition Event : Type := Cmd * Answer.

(** Modelled from the spec: the contract of [wait_while_state] (section
    4.3): it "polls device status repeatedly while the device reports" the
    given state and "returns the final {state, status}", so a status it
    returns is not in the awaited state. *)
Definition wait_leaves_state {D} (dev : DfuDevice D) : Prop :=
  forall s t d status d',
    dev_wait_while_state dev s t d = (inr status, d') ->
    st_state status <> s.

Section Orchestrator.

Context {D : Type} (dev : DfuDevice D).

(** A computation on the device: from a device state to a result (or an
    exception), the transcript of the calls made, and the new state. *)
Definition M (A : Type) : Type := D -> Res A * list Event * D.

Definition ret {A} (a : A) : M A := fun d => (inr a, [], d).

Definition raise {A} (e : Exn) : M A := fun d => (inl e, [], d).

Definition bind {A B} (m : M A) (f : A -> M B) : M B :=
  fun d =>
    match m d with
    | (inr a, t, d') =>
        match f a d' with (r, t', d'') => (r, t ++ t', d'') end
    | (inl e, t, d') => (inl e, t, d')
    end.

Definition call {A} (c : Cmd) (answer : A -> Answer)
    (method : D -> Res A * D) : M A :=
  fun d =>
    match method d with
    | (inr a, d') => (inr a, [(c, answer a)], d')
    | (inl e, d') => (inl e, [(c, Raised e)], d')
    end.

Notation "x <- m ;; k" := (bind m (fun x => k))
  (at level 61, m at next level, right associativity).
Notation "m ;; k" := (bind m (fun _ => k))
  (at level 61, right associativity).

Definition set_alternate (alt : Z) : M unit :=
  call (CSetAlternate alt) (fun _ => Returned) (dev_set_alternate dev alt).
Definition get_state : M DfuState :=
  call CGetState ReturnedState (dev_get_state dev).
Definition clear_status : M unit :=
  call CClearStatus (fun _ => Returned) (dev_clear_status dev).
Definition wait_while_state (s : DfuState) (timeout : option Q) : M DeviceStatus :=
  call (CWait s timeout) ReturnedStatus (dev_wait_while_state dev s timeout).
Definition erase_page (a : Z) : M unit :=
  call (CErase a) (fun _ => Returned) (dev_erase dev a).
Definition set_address (a : Z) : M unit :=
  call (CSetAddress a) (fun _ => Returned) (dev_set_address dev a).
Definition write (blocknum : nat) (block : list Z) : M unit :=
  call (CWrite blocknum block) (fun _ => Returned) (dev_write dev blocknum block).

(** Lines 65-69. *)
Definition set_alternate_safe (alt : Z) : M unit :=
  set_alternate alt ;;
  s <- get_state ;;
  if state_eqb s DFU_ERROR then
    clear_status ;;
    wait_while_state DFU_ERROR None ;;
    ret tt
  else ret tt.

(** Lines 71-79 (the progress messages are not modelled).  The timeout is
    Python's true division [len(sector['data'])/32], a rational here. *)
Fixpoint erase (sectors : list Sector) : M unit :=
  match sectors with
  | [] => ret tt
  | sector :: rest =>
      set_alternate_safe (alt sector) ;;
      erase_page (addr sector) ;;
      status <- wait_while_state DFU_DOWNLOAD_BUSY
                  (Some (Z.of_nat (length (data sector)) # 32)) ;;
      if state_eqb (st_state status) DFU_DOWNLOAD_IDLE then erase rest
      else raise (status_error status)
  end.

(** [range(0, stop, step)]. *)
Definition range_step (stop step : nat) : list nat :=
  map (fun k => k * step)%nat (seq 0 ((stop + step - 1) / step)).

(** Line 91: [[data[i:i + TRANSFER_SIZE] for i in range(0, len(data), TRANSFER_SIZE)]]. *)
Definition blocks (data : list Z) : list (list Z) :=
  map (fun i => firstn TRANSFER_SIZE (skipn i data))
      (range_step (length data) TRANSFER_SIZE).

Definition enumerate {A} (l : list A) : list (nat * A) :=
  combine (seq 0 (length l)) l.

(** Lines 92-98: the loop over the blocks of one sector. *)
Fixpoint write_blocks (l : list (nat * list Z)) : M unit :=
  match l with
  | [] => ret tt
  | (blocknum, block) :: rest =>
      write blocknum block ;;
      status <- wait_while_state DFU_DOWNLOAD_BUSY None ;;
      if state_eqb (st_state status) DFU_DOWNLOAD_IDLE then write_blocks rest
      else raise (status_error status)
  end.

(** Lines 81-99. *)
Fixpoint flash (sectors : list Sector) : M unit :=
  match sectors with
  | [] => ret tt
  | sector :: rest =>
      set_alternate_safe (alt sector) ;;
      set_address (addr sector) ;;
      status <- wait_while_state DFU_DOWNLOAD_BUSY None ;;
      if state_eqb (st_state status) DFU_DOWNLOAD_IDLE then
        write_blocks (enumerate (blocks (data sector))) ;;
        flash rest
      else raise (status_error status)
  end.

End Orchestrator.

(** *** Reading a transcript *)

(** The exception an event leads to: the one a method raised, or the one
    raised after a wait on DOWNLOAD_BUSY that ends in a state other than
    DOWNLOAD_IDLE. *)
Definition failure (ev : Event) : option Exn :=
  match snd ev with
  | Raised e => Some e
  | ReturnedStatus status =>
      match fst ev with
      | CWait DFU_DOWNLOAD_BUSY _ =>
          if state_eqb (st_state status) DFU_DOWNLOAD_IDLE then None
          else Some (status_error status)
      | _ => None
      end
  | _ => None
  end.

(** The commands of a transcript. *)
Definition cmds (t : list Event) : list Cmd := map fst t.

(** Commands that belong to the recovery of [set_alternate_safe]. *)
Definition is_recovery (c : Cmd) : bool :=
  match c with
  | CClearStatus | CWait DFU_ERROR _ => true
  | _ => false
  end.

(** The commands of a transcript without the recovery steps. *)
Definition core (t : list Event) : list Cmd :=
  filter (fun c => negb (is_recovery c)) (cmds t).

Definition is_clear_status (ev : Event) : bool :=
  match ev with (CClearStatus, _) => true | _ => false end.

(** Number of clear-status requests in a transcript. *)
Definition clear_count (t : list Event) : nat :=
  length (filter is_clear_status t).

(** The erase sequence in the words of the spec (section 4.4): for each
    sector in order, select its alternate, erase at its address, wait while
    busy with timeout size/32. *)
Definition erase_script (sectors : list Sector) : list Cmd :=
  flat_map (fun s =>
    [CSetAlternate (alt s); CGetState; CErase (addr s);
     CWait DFU_DOWNLOAD_BUSY (Some (Z.of_nat (length (data s)) # 32))]) sectors.

(** The flash sequence in the words of the spec: select the alternate, set
    the address, wait, then each block with its number followed by a wait. *)
Definition block_script (l : list (nat * list Z)) : list Cmd :=
  flat_map (fun nb => [CWrite (fst nb) (snd nb); CWait DFU_DOWNLOAD_BUSY None]) l.

Definition flash_script (sectors : list Sector) : list Cmd :=
  flat_map (fun s =>
    [CSetAlternate (alt s); CGetState; CSetAddress (addr s);
     CWait DFU_DOWNLOAD_BUSY None]
    ++ block_script (enumerate (blocks (data s)))) sectors.

(** ** Concrete collaborators, used to run the definitions *)

(** [IntelHex.tobinarray] exchanges start and end when start > end. *)
Definition read_range (c : Z -> option Z) (s e : Z) : list Z :=
  let lo := Z.min s e in
  let hi := Z.max s e in
  map (padded c) (zrange lo (Z.to_nat (hi - lo + 1))).

Definition covered (segs : list (Z * Z)) (a : Z) : bool :=
  existsb (fun se => (fst se <=? a) && (a <? snd se)) segs.

(** An image populated exactly on the given segments, holding [byte a] at
    address [a]. *)
Definition image (segs : list (Z * Z)) (byte : Z -> Z) : HexFile :=
  let c := fun a => if covered segs a then Some (byte a) else None in
  {| segments := segs; tobinarray := read_range c; content := c |}.

Definition idle_status (s : DfuState) : DeviceStatus :=
  {| st_code := 0; st_state := s; st_poll := 0 |}.

(** A state different from the awaited one, [s] itself when possible. *)
Definition settle (awaited s : DfuState) : DfuState :=
  if state_eqb s awaited then
    if state_eqb awaited DFU_DOWNLOAD_IDLE then DFU_IDLE else DFU_DOWNLOAD_IDLE
  else s.

(** A simulated device: [sim_state] is what get_state reports (clear-status
    brings it back to IDLE); each wait takes the next entry of [sim_waits], an
    exception to raise or a state to end in, and ends in DOWNLOAD_IDLE when
    the list is exhausted. *)
Record Sim := {
  sim_state : DfuState;
  sim_waits : list (Exn + DfuState)
}.

Definition sim_wait (s : DfuState) (t : option Q) (d : Sim) : Res DeviceStatus * Sim :=
  match sim_waits d with
  | [] => (inr (idle_status (settle s DFU_DOWNLOAD_IDLE)), d)
  | inl e :: rest => (inl e, {| sim_state := sim_state d; sim_waits := rest |})
  | inr s' :: rest =>
      (inr (idle_status (settle s s')),
       {| sim_state := sim_state d; sim_waits := rest |})
  end.

Definition sim_device : DfuDevice Sim := {|
  dev_set_alternate := fun _ d => (inr tt, d);
  dev_get_state := fun d => (inr (sim_state d), d);
  dev_clear_status := fun d =>
    (inr tt, {| sim_state := DFU_IDLE; sim_waits := sim_waits d |});
  dev_wait_while_state := sim_wait;
  dev_erase := fun _ d => (inr tt, d);
  dev_set_address := fun _ d => (inr tt, d);
  dev_write := fun _ _ d => (inr tt, d)
|}.

(** ** Vocabulary of the properties *)

(** [chain a cs a']: the sectors [cs] lie end to end from address [a] to
    address [a']. *)
Fixpoint chain (a : Z) (cs : list Cell) (a' : Z) : Prop :=
  match cs with
  | [] => a = a'
  | c :: rest => cell_addr c = a /\ chain (a + cell_size c) rest a'
  end.

(** The layout of end-to-end scenario 1. *)
Definition scenario1_name : str := py "@Flash/0x08000000/04*016Kg,01*064Kg".


(** What the planner uses of a parsed entry: everything but the mode. *)
Definition sans_mode (p : PyExn + (Z * Z * ascii)) : PyExn + (Z * Z) :=
  match p with
  | inl e => inl e
  | inr (repeat, size, _) => inr (repeat, size)
  end.

(** Two entries that differ at most in their last character, the
    access-mode tag. *)
Definition same_but_mode (s1 s2 : str) : Prop :=
  s1 = s2 \/ exists body m1 m2, s1 = body ++ [m1] /\ s2 = body ++ [m2].

(** Two descriptor strings that differ at most in the mode tags of their
    entries. *)
Definition mode_variant (n1 n2 : str) : Prop :=
  n1 = n2 \/
  exists label a layout1 layout2,
    split "/" n1 = [label; a; layout1] /\
    split "/" n2 = [label; a; layout2] /\
    Forall2 same_but_mode (split "," layout1) (split "," layout2).

(** The units of the spec (section 4.1): blank, K and M. *)
Definition known_unit (c : ascii) : Prop :=
  c = " "%char \/ c = "K"%char \/ c = "M"%char.

(** The form of a layout entry in the words of the spec (section 4.1):
    [repeat*sizeUnitMode], with integer repeat and size, a known unit (after
    uppercasing) and one more character, the mode. *)
Definition wf_sector (s : str) : Prop :=
  exists r z u m,
    s = r ++ "*"%char :: z ++ [u; m] /\
    int10 r <> None /\ int10 z <> None /\ known_unit (upper u).

(** A descriptor: three [/]-separated fields, an address [int(addr, 0)]
    accepts, entries of the form above. *)
Definition wf_descriptor (name : str) : Prop :=
  exists label a layout,
    split "/" name = [label; a; layout] /\
    int0 a <> None /\
    Forall wf_sector (split "," layout).

(** The characters a literal accepted by [int] is made of. *)
Definition literal_char (c : ascii) : Prop :=
  is_space c = true \/ c = "+"%char \/ c = "-"%char \/ c = underscore \/
  digit_val c <> None.

(** No event of the transcript failed. *)
Definition no_failure (t : list Event) : Prop :=
  Forall (fun ev => failure ev = None) t.

(** A run ends cleanly: on a normal return no event of the transcript
    failed; on an exception the last event is the one that failed, it gives
    the exception, and nothing failed before it. *)
Definition clean {A} (r : Res A) (t : list Event) : Prop :=
  match r with
  | inr _ => no_failure t
  | inl e => exists pre ev,
      t = pre ++ [ev] /\ no_failure pre /\ failure ev = Some e
  end.

(** A run follows a script: the commands issued, recovery steps apart, are
    an initial part of the script, and all of it on a normal return. *)
Definition follows {A} (script : list Cmd) (r : Res A) (t : list Event) : Prop :=
  (exists rest, script = core t ++ rest) /\
  (forall a, r = inr a -> core t = script).

(** The properties above, for every run of a computation. *)
Definition always {D A} (P : Res A -> list Event -> Prop) (m : @M D A) : Prop :=
  forall d, P (fst (fst (m d))) (snd (fst (m d))).

(** Three sectors of 64, 32 and 32 bytes. *)
Definition three_sectors : list Sector :=
  [ {| alt := 0; addr := 16; data := List.repeat 255 64 |};
    {| alt := 0; addr := 80; data := List.repeat 255 32 |};
    {| alt := 1; addr := 112; data := List.repeat 255 32 |} ].

(** The device is idle, the first wait ends in DOWNLOAD_IDLE and the second
    one times out. *)
Definition timeout_on_second : Sim :=
  {| sim_state := DFU_IDLE;
     sim_waits := [inr DFU_DOWNLOAD_IDLE; inl TimeoutError] |}.

(** A device that is in the ERROR state. *)
Definition in_error : Sim := {| sim_state := DFU_ERROR; sim_waits := [] |}.



(** ** The rest of the tool: [jump_to_application] and the main sequence *)

(** [jump_to_application] also calls [dfudev.leave()]: the device with that
    method. *)
Record DfuDeviceL (D : Type) := {
  dfu : DfuDevice D;
  dev_leave : D -> Res unit * D
}.
Arguments dfu {D}.
Arguments dev_leave {D}.

(** A step of the whole tool: one of the calls above, or [leave] with its
    answer. *)
Inductive Step :=
| StepCall (ev : Event)
| StepLeave (a : Answer).

(** What ends the main sequence early: an exception of [erase], [flash] or
    of a device method, or the RuntimeError of [jump_to_application], whose
    message shows the state [status[1]] only. *)
Inductive ToolExn :=
| FromDevice (e : Exn)
| JumpError (s : DfuState).

Section Tool.

Context {D : Type} (devl : DfuDeviceL D).

Definition T (A : Type) : Type := D -> (ToolExn + A) * list Step * D.

Definition retT {A} (a : A) : T A := fun d => (inr a, [], d).

Definition raiseT {A} (e : ToolExn) : T A := fun d => (inl e, [], d).

Definition bindT {A B} (m : T A) (f : A -> T B) : T B :=
  fun d =>
    match m d with
    | (inr a, t, d') =>
        match f a d' with (r, t', d'') => (r, t ++ t', d'') end
    | (inl e, t, d') => (inl e, t, d')
    end.

(** A computation on the device without [leave], run as part of the tool. *)
Definition liftT {A} (m : @M D A) : T A :=
  fun d =>
    match m d with
    | (inr a, t, d') => (inr a, map StepCall t, d')
    | (inl e, t, d') => (inl (FromDevice e), map StepCall t, d')
    end.

Definition leave : T unit :=
  fun d =>
    match dev_leave devl d with
    | (inr _, d') => (inr tt, [StepLeave Returned], d')
    | (inl e, d') => (inl (FromDevice e), [StepLeave (Raised e)], d')
    end.

Notation "x <- m ;; k" := (bindT m (fun x => k))
  (at level 61, m at next level, right associativity).
Notation "m ;; k" := (bindT m (fun _ => k))
  (at level 61, right associativity).

(** Lines 126-135. *)
Definition jump_to_application (address : Z) : T unit :=
  liftT (set_address (dfu devl) address) ;;
  status <- liftT (wait_while_state (dfu devl) DFU_DOWNLOAD_BUSY None) ;;
  if negb (state_eqb (st_state status) DFU_DOWNLOAD_IDLE)
  then raiseT (JumpError (st_state status))
  else
    leave ;;
    status <- liftT (wait_while_state (dfu devl) DFU_MANIFEST_SYNC None) ;;
    if negb (state_eqb (st_state status) DFU_MANIFEST)
    then raiseT (JumpError (st_state status))
    else retT tt.

(** Lines 180-190: erase, flash, jump to the application at 0x08000000. *)
Definition main_sequence (sectors : list Sector) : T unit :=
  liftT (erase (dfu devl) sectors) ;;
  liftT (flash (dfu devl) sectors) ;;
  jump_to_application 134217728.

(** Lines 174-190: [sectors = list(load_sectors(dfudev, hexfile))] consumes
    the generator first, so an exception of the planner ends the program
    before [erase] is called.  (Opening the image file, finding the USB
    device and the progress output are not modelled; [alternates] is
    [dfudev.alternates()].) *)
Definition main (alternates : list (str * Z)) (h : HexFile) (d : D)
  : PyExn + ((ToolExn + unit) * list Step * D) :=
  match load_sectors alternates h with
  | (_, Some e) => inl e
  | (sectors, None) => inr (main_sequence sectors d)
  end.

End Tool.

(** The payload bytes sent by the write commands of a command list, in
    order. *)
Definition written (l : list Cmd) : list Z :=
  flat_map (fun c => match c with CWrite _ block => block | _ => [] end) l.

(** The device calls of a list of steps. *)
Definition calls (l : list Step) : list Event :=
  flat_map (fun s => match s with StepCall ev => [ev] | StepLeave _ => [] end) l.

Definition is_leave (s : Step) : bool :=
  match s with StepLeave _ => true | StepCall _ => false end.

(** The simulated device, with a [leave] that always succeeds. *)
Definition sim_device_l : DfuDeviceL Sim :=
  {| dfu := sim_device; dev_leave := fun d => (inr tt, d) |}.

(** A device on which five waits succeed, the last one ending in MANIFEST. *)
Definition good_run : Sim :=
  {| sim_state := DFU_IDLE;
     sim_waits := [inr DFU_DOWNLOAD_IDLE; inr DFU_DOWNLOAD_IDLE;
                   inr DFU_DOWNLOAD_IDLE; inr DFU_DOWNLOAD_IDLE;
                   inr DFU_MANIFEST] |}.

(** One sector of four bytes. *)
Definition small_sector : list Sector :=
  [ {| alt := 0; addr := 134217728; data := [1; 2; 3; 4] |} ].

(** The run of the main sequence on [small_sector] from [good_run], before
    and after its only write. *)
Definition small_run_before_write : list Step :=
  [ StepCall (CSetAlternate 0, Returned);
    StepCall (CGetState, ReturnedState DFU_IDLE);
    StepCall (CErase 134217728, Returned);
    StepCall (CWait DFU_DOWNLOAD_BUSY (Some (4 # 32)),
              ReturnedStatus (idle_status DFU_DOWNLOAD_IDLE));
    StepCall (CSetAlternate 0, Returned);
    StepCall (CGetState, ReturnedState DFU_IDLE);
    StepCall (CSetAddress 134217728, Returned);
    StepCall (CWait DFU_DOWNLOAD_BUSY None,
              ReturnedStatus (idle_status DFU_DOWNLOAD_IDLE)) ].

Definition small_run_after_write : list Step :=
  [ StepCall (CWait DFU_DOWNLOAD_BUSY None,
              ReturnedStatus (idle_status DFU_DOWNLOAD_IDLE));
    StepCall (CSetAddress 134217728, Returned);
    StepCall (CWait DFU_DOWNLOAD_BUSY None,
              ReturnedStatus (idle_status DFU_DOWNLOAD_IDLE));
    StepLeave Returned;
    StepCall (CWait DFU_MANIFEST_SYNC None,
              ReturnedStatus (idle_status DFU_MANIFEST)) ].

(** A device on which the two waits of the jump succeed. *)
Definition ready_to_jump : Sim :=
  {| sim_state := DFU_IDLE;
     sim_waits := [inr DFU_DOWNLOAD_IDLE; inr DFU_MANIFEST] |}.

(** *** The recovery of [set_alternate_safe] within a transcript *)

(** Where a run stands with respect to the recovery: nothing is pending, the
    state ERROR has just been read, or the status has just been cleared. *)
Inductive Phase := Settled | SawError | Cleared.

(** What may come next in each phase: after ERROR was read only a
    clear-status request, after a clear-status that returned only a wait on
    ERROR without timeout, and neither of the two anywhere else. *)
Definition phase_step (p : Phase) (ev : Event) : option Phase :=
  match p with
  | Settled =>
      match fst ev with
      | CGetState =>
          match snd ev with
          | ReturnedState DFU_ERROR => Some SawError
          | _ => Some Settled
          end
      | CClearStatus => None
      | CWait DFU_ERROR _ => None
      | _ => Some Settled
      end
  | SawError =>
      match fst ev with
      | CClearStatus =>
          match snd ev with
          | Returned => Some Cleared
          | Raised _ => Some Settled
          | _ => None
          end
      | _ => None
      end
  | Cleared =>
      match fst ev with
      | CWait DFU_ERROR None => Some Settled
      | _ => None
      end
  end.

Fixpoint phase_run (p : Phase) (t : list Event) : option Phase :=
  match t with
  | [] => Some p
  | ev :: rest =>
      match phase_step p ev with
      | Some q => phase_run q rest
      | None => None
      end
  end.

(** A transcript in which every recovery is complete and in its place. *)
Definition recovered (t : list Event) : Prop :=
  phase_run Settled t = Some Settled.

(** The same, spelled out: each get_state that answers ERROR is followed at
    once by a clear-status request and, when that returned, by a wait on
    ERROR without timeout; a clear-status request occurs only right after a
    get_state that answered ERROR, and a wait on ERROR only right after a
    clear-status that returned. *)
Definition recovery_in_place (t : list Event) : Prop :=
  (forall pre post,
      t = pre ++ (CGetState, ReturnedState DFU_ERROR) :: post ->
      exists a post',
        post = (CClearStatus, a) :: post' /\
        (a = Returned ->
         exists w post'', post' = (CWait DFU_ERROR None, w) :: post'')) /\
  (forall pre a post,
      t = pre ++ (CClearStatus, a) :: post ->
      exists pre', pre = pre' ++ [(CGetState, ReturnedState DFU_ERROR)]) /\
  (forall pre timeout w post,
      t = pre ++ (CWait DFU_ERROR timeout, w) :: post ->
      timeout = None /\
      exists pre', pre = pre' ++ [(CClearStatus, Returned)]).

(** A device on which the first wait ends in the ERROR state. *)
Definition error_on_first : Sim :=
  {| sim_state := DFU_IDLE; sim_waits := [inr DFU_ERROR] |}.

(** * Properties *)

(** ** The definitions on the examples of the source *)

Example split_example :
  split "/" (py "@Internal Flash  /0x08000000/04*016Kg,01*064Kg,07*128Kg")
  = [py "@Internal Flash  "; py "0x08000000"; py "04*016Kg,01*064Kg,07*128Kg"].
Proof. reflexivity. Qed.

Example int_examples :
  int0 (py "0x08000000") = Some 134217728 /\
  int10 (py "016") = Some 16 /\ int10 (py " 1_6 ") = Some 16 /\
  int10 (py "-01") = Some (-1) /\ int10 (py "") = None /\
  int10 (py "1__6") = None /\ int10 (py "0x10") = None /\
  int0 (py "010") = None /\ int0 (py "-0x_1f") = Some (-31).
Proof. repeat split; reflexivity. Qed.

Example parse_sector_examples :
  parse_sector (py "04*016Kg") = inr (4, 16384, "g"%char) /\
  parse_sector (py "07*128Kg") = inr (7, 131072, "g"%char) /\
  parse_sector (py "01*002Ma") = inr (1, 2097152, "a"%char) /\
  parse_sector (py "04*016Xg") = inl (KeyError "X") /\
  parse_sector (py "04x016Kg") = inl ValueError /\
  parse_sector (py "g") = inl ValueError.
Proof. repeat split; reflexivity. Qed.

Example blocks_example :
  map (@length Z) (blocks (List.repeat 0 5000)) = [2048; 2048; 904]%nat /\
  blocks [] = [].
Proof. split; vm_compute; reflexivity. Qed.

(** ** The planner yields what [plan] gives at the visited sectors *)

Lemma repeat_loop_cells h al n a sz :
  repeat_loop h al n a sz =
  (flat_map (plan h) (fst (repeat_cells al n a sz)),
   snd (repeat_cells al n a sz)).
Proof.
  revert a; induction n as [|n IH]; intros a; simpl; [reflexivity|].
  rewrite IH. destruct (repeat_cells al n (a + sz) sz) as [cs a'].
  simpl. unfold plan at 2. simpl. reflexivity.
Qed.

Lemma layout_loop_cells h al layout a :
  layout_loop h al layout a =
  (flat_map (plan h) (fst (layout_cells al layout a)),
   snd (layout_cells al layout a)).
Proof.
  revert a; induction layout as [|s rest IH]; intros a; simpl; [reflexivity|].
  destruct (parse_sector s) as [e|[[rp sz] mode]]; [reflexivity|].
  rewrite repeat_loop_cells.
  destruct (repeat_cells al (Z.to_nat rp) a sz) as [cs a']. simpl.
  rewrite IH. destruct (layout_cells al rest a') as [cs' r]. simpl.
  now rewrite flat_map_app.
Qed.

Lemma load_sectors_cells alternates h :
  load_sectors alternates h =
  (flat_map (plan h) (fst (cells alternates)), snd (cells alternates)).
Proof.
  induction alternates as [|[name al] rest IH]; simpl; [reflexivity|].
  unfold descriptor_cells.
  destruct (split "/" name) as [|label [|a [|layout [|x l]]]]; try reflexivity.
  destruct (int0 a) as [a0|]; [|reflexivity].
  rewrite layout_loop_cells.
  destruct (layout_cells al (split "," layout) a0) as [cs [e|]]; simpl;
    [reflexivity|].
  rewrite IH. destruct (cells rest) as [cs' r']. simpl.
  now rewrite flat_map_app.
Qed.

(** ** The overlap test (C1) *)

Lemma touched_spec segs A S :
  touched segs A S = true <->
  exists s e, In (s, e) segs /\ ((s < A /\ e > A) \/ (A <= s /\ s < A + S)).
Proof.
  induction segs as [|[s e] rest IH]; simpl.
  - split; [discriminate|]. intros (s & e & [] & _).
  - destruct ((s <? A) && (e >? A)) eqn:Ha.
    + split; [intros _|reflexivity]. exists s, e.
      apply andb_true_iff in Ha as [H1 H2]. split; [now left|]. left. lia.
    + destruct ((s >=? A) && (s <? A + S)) eqn:Hb.
      * split; [intros _|reflexivity]. exists s, e.
        apply andb_true_iff in Hb as [H1 H2]. split; [now left|]. right. lia.
      * rewrite IH. split.
        -- intros (s' & e' & Hin & H). exists s', e'. split; [now right|exact H].
        -- intros (s' & e' & [Heq|Hin] & H).
           ++ inversion Heq; subst s' e'.
              apply andb_false_iff in Ha. apply andb_false_iff in Hb.
              exfalso. destruct H as [[H1 H2]|[H1 H2]].
              ** destruct Ha as [Ha|Ha]; lia.
              ** destruct Hb as [Hb|Hb]; lia.
           ++ exists s', e'. now split.
Qed.

(** C1 (amended).  A sector at address [A] of size [S] is touched exactly
    when some segment [(s, e)] has [s < A < e] or [A <= s < A + S], and the
    planner yields a sector exactly when it is touched.  A non-empty segment
    ending at [A] does not touch the sector; a segment ending at [A + 1] with
    [s <= A] touches it when [s < A] or the size is positive. *)
Theorem C1_touched_iff_overlap :
  forall (h : HexFile) (al A S : Z),
    (touched (segments h) A S = true <->
     exists s e, In (s, e) (segments h) /\
                 ((s < A /\ e > A) \/ (A <= s /\ s < A + S))) /\
    (touched (segments h) A S = true ->
     fst (repeat_loop h al 1 A S) =
       [{| alt := al; addr := A; data := tobinarray h A (A + S - 1) |}]) /\
    (touched (segments h) A S = false -> fst (repeat_loop h al 1 A S) = []) /\
    (forall s, s < A -> touched [(s, A)] A S = false) /\
    (forall s, s <= A -> s < A \/ 0 < S -> touched [(s, A + 1)] A S = true).
Proof.
  intros h al A S. split; [apply touched_spec|].
  split; [intros H; simpl; now rewrite H|].
  split; [intros H; simpl; now rewrite H|].
  split.
  - intros s Hs. destruct (touched [(s, A)] A S) eqn:E; [|reflexivity].
    apply touched_spec in E as (s' & e' & [Heq|[]] & H).
    inversion Heq; subst. lia.
  - intros s Hs Hor. apply touched_spec. exists s, (A + 1).
    split; [now left|]. lia.
Qed.

Lemma C1_touched_iff_overlap_witness :
  touched [(0, 17)] 16 0 = true /\ touched [(16, 17)] 16 1 = true /\
  touched [(0, 16)] 16 1 = false.
Proof.
  pose proof (C1_touched_iff_overlap (image [] (fun a => a)) 0 16 0)
    as (_ & _ & _ & _ & H0).
  pose proof (C1_touched_iff_overlap (image [] (fun a => a)) 0 16 1)
    as (_ & _ & _ & H1 & H2).
  split; [apply (H0 0); lia|].
  split; [apply (H2 16); lia|apply (H1 0); lia].
Defined.

(** C1 as stated fails: for the descriptor ["@F/16/01*000 g"] the only
    sector has address 16 and size 0; the segment [(16, 17)] ends at
    [A + 1] and starts at [A], yet the sector is not touched and the planner
    yields nothing. *)
Lemma C1_counterexample :
  cells [(py "@F/16/01*000 g", 0)] = ([(0, 16, 0)], None) /\
  touched [(16, 17)] 16 0 = false /\
  load_sectors [(py "@F/16/01*000 g", 0)] (image [(16, 17)] (fun a => a))
  = ([], None).
Proof. repeat split; vm_compute; reflexivity. Qed.

(** ** Payloads (C2) *)

Lemma zrange_length a n : length (zrange a n) = n.
Proof. unfold zrange. now rewrite length_map, length_seq. Qed.

Lemma zrange_map_nth (f : Z -> Z) a n i d :
  (i < n)%nat -> nth i (map f (zrange a n)) d = f (a + Z.of_nat i).
Proof.
  intros Hi. unfold zrange. rewrite map_map.
  rewrite (nth_indep _ d (f (a + Z.of_nat 0))).
  - rewrite (map_nth (fun x => f (a + Z.of_nat x)) (seq 0 n) 0%nat i).
    now rewrite seq_nth.
  - now rewrite length_map, length_seq.
Qed.

Lemma plan_inv h c s :
  In s (plan h c) ->
  touched (segments h) (cell_addr c) (cell_size c) = true /\
  s = {| alt := cell_alt c; addr := cell_addr c;
         data := tobinarray h (cell_addr c) (cell_addr c + cell_size c - 1) |}.
Proof.
  unfold plan. destruct (touched _ _ _); [|intros []].
  intros [H|[]]. split; [reflexivity|now symmetry].
Qed.


Lemma payload_positive h a sz :
  HexFile_ok h -> 0 < sz ->
  let d := tobinarray h a (a + sz - 1) in
  Z.of_nat (length d) = sz /\
  forall i, (i < length d)%nat ->
    (forall st e, In (st, e) (segments h) -> ~ (st <= a + Z.of_nat i < e)) ->
    nth i d 0 = PAD.
Proof.
  intros Hok Hsz d. subst d.
  rewrite (tobinarray_range h Hok a (a + sz - 1)) by lia.
  replace (a + sz - 1 - a + 1) with sz by lia.
  rewrite length_map, zrange_length. split; [lia|].
  intros i Hi Hun. rewrite zrange_map_nth by exact Hi.
  unfold padded. destruct (content h (a + Z.of_nat i)) as [b|] eqn:E;
    [|reflexivity].
  exfalso. assert (Hne : content h (a + Z.of_nat i) <> None) by congruence.
  apply (segments_content h Hok) in Hne as (st & e & Hin & Hr).
  exact (Hun st e Hin Hr).
Qed.


Lemma covered_spec segs a :
  covered segs a = true <-> exists s e, In (s, e) segs /\ s <= a < e.
Proof.
  unfold covered. rewrite existsb_exists. split.
  - intros ([s e] & Hin & H). simpl in H.
    apply andb_true_iff in H as [H1 H2]. exists s, e. split; [exact Hin|lia].
  - intros (s & e & Hin & H). exists (s, e). split; [exact Hin|]. simpl.
    apply andb_true_iff. split; lia.
Qed.

Lemma image_ok segs byte :
  Forall (fun se => fst se < snd se) segs -> HexFile_ok (image segs byte).
Proof.
  intros Hne. constructor; simpl.
  - intros s e Hin. rewrite Forall_forall in Hne. exact (Hne (s, e) Hin).
  - intros a. rewrite <- covered_spec.
    destruct (covered segs a); split; congruence.
  - intros s e Hse. unfold read_range.
    rewrite Z.min_l, Z.max_r by lia. reflexivity.
Qed.



(** ** The address cursor (C4) *)

Lemma chain_app a x y c :
  chain a (x ++ y) c <-> exists b, chain a x b /\ chain b y c.
Proof.
  revert a; induction x as [|k x IH]; intros a; simpl.
  - split; [intros H; now exists a|intros (b & -> & H); exact H].
  - rewrite IH. split.
    + intros (H1 & b & H2 & H3). exists b. tauto.
    + intros (b & (H1 & H2) & H3). split; [exact H1|]. now exists b.
Qed.

Lemma repeat_cells_chain al n a sz :
  chain a (fst (repeat_cells al n a sz)) (snd (repeat_cells al n a sz)).
Proof.
  revert a; induction n as [|n IH]; intros a; simpl; [reflexivity|].
  specialize (IH (a + sz)).
  destruct (repeat_cells al n (a + sz) sz) as [cs a']. simpl in *.
  split; [reflexivity|exact IH].
Qed.

Lemma layout_cells_chain al layout a :
  exists a', chain a (fst (layout_cells al layout a)) a'.
Proof.
  revert a; induction layout as [|s rest IH]; intros a; simpl.
  - now exists a.
  - destruct (parse_sector s) as [e|[[rp sz] mode]]; [now exists a|].
    pose proof (repeat_cells_chain al (Z.to_nat rp) a sz) as H.
    destruct (repeat_cells al (Z.to_nat rp) a sz) as [cs a1]. simpl in H.
    destruct (IH a1) as (a2 & H2).
    destruct (layout_cells al rest a1) as [cs' r]. simpl in *.
    exists a2. apply chain_app. now exists a1.
Qed.

Lemma chain_adjacent a cs a' i c1 c2 :
  chain a cs a' ->
  nth_error cs i = Some c1 -> nth_error cs (S i) = Some c2 ->
  cell_addr c2 = cell_addr c1 + cell_size c1.
Proof.
  revert a i; induction cs as [|c cs IH]; intros a i Hc H1 H2.
  - destruct i; discriminate.
  - destruct Hc as [Ha Hc]. destruct i as [|i].
    + simpl in H1. injection H1 as <-. destruct cs as [|c' cs]; [discriminate|].
      simpl in H2. injection H2 as <-. destruct Hc as [Hc _]. lia.
    + exact (IH _ i Hc H1 H2).
Qed.

Lemma chain_lower_bound a cs a' c :
  chain a cs a' -> Forall (fun c => 0 < cell_size c) cs ->
  In c cs -> a <= cell_addr c.
Proof.
  revert a; induction cs as [|k cs IH]; intros a Hc Hpos Hin; [destruct Hin|].
  destruct Hc as [Ha Hc]. inversion Hpos as [|? ? Hk Hpos']; subst.
  destruct Hin as [->|Hin]; [lia|].
  specialize (IH _ Hc Hpos' Hin). lia.
Qed.

Lemma chain_increasing a cs a' i j c1 c2 :
  chain a cs a' -> Forall (fun c => 0 < cell_size c) cs ->
  (i < j)%nat -> nth_error cs i = Some c1 -> nth_error cs j = Some c2 ->
  cell_addr c1 < cell_addr c2.
Proof.
  revert a i j; induction cs as [|c cs IH]; intros a i j Hc Hpos Hij H1 H2.
  - destruct i; discriminate.
  - destruct Hc as [Ha Hc]. inversion Hpos as [|? ? Hk Hpos']; subst.
    destruct j as [|j]; [lia|]. simpl in H2. destruct i as [|i].
    + simpl in H1. injection H1 as <-.
      apply nth_error_In in H2.
      pose proof (chain_lower_bound _ _ _ _ Hc Hpos' H2). lia.
    + simpl in H1. apply (IH _ i j Hc Hpos'); [lia|exact H1|exact H2].
Qed.

Lemma load_sectors_single name al h cs r :
  descriptor_cells name al = Some (cs, r) ->
  load_sectors [(name, al)] h = (flat_map (plan h) cs, r).
Proof.
  intros H. rewrite load_sectors_cells. simpl. rewrite H.
  destruct r; simpl; [reflexivity|]. now rewrite app_nil_r.
Qed.

(** C4 (amended).  The sectors visited for one descriptor start at its base
    address and lie end to end: each sector's start plus its size is the
    next sector's start, touched or not; the planner yields exactly what the
    overlap test selects among them.  When every size is positive the start
    addresses are strictly increasing. *)
Theorem C4_sectors_contiguous :
  forall (name : str) (al : Z) (cs : list Cell) (r : option PyExn),
    descriptor_cells name al = Some (cs, r) ->
    (exists label a layout base,
        split "/" name = [label; a; layout] /\ int0 a = Some base /\
        forall c, nth_error cs 0 = Some c -> cell_addr c = base) /\
    (forall i c1 c2,
        nth_error cs i = Some c1 -> nth_error cs (S i) = Some c2 ->
        cell_addr c1 + cell_size c1 = cell_addr c2) /\
    (Forall (fun c => 0 < cell_size c) cs ->
     forall i j c1 c2, (i < j)%nat ->
        nth_error cs i = Some c1 -> nth_error cs j = Some c2 ->
        cell_addr c1 < cell_addr c2) /\
    (forall h, load_sectors [(name, al)] h = (flat_map (plan h) cs, r)).
Proof.
  intros name al cs r H.
  assert (Hch : exists label a layout base,
             split "/" name = [label; a; layout] /\ int0 a = Some base /\
             exists a', chain base cs a').
  { unfold descriptor_cells in H.
    destruct (split "/" name) as [|label [|a [|layout [|x l]]]];
      try discriminate.
    destruct (int0 a) as [base|] eqn:E; [|discriminate].
    exists label, a, layout, base. split; [reflexivity|]. split; [exact E|].
    destruct (layout_cells_chain al (split "," layout) base) as (a' & Hc).
    injection H as H. rewrite H in Hc. now exists a'. }
  destruct Hch as (label & a & layout & base & Hs & Hi & a' & Hc).
  split; [|split; [|split]].
  - exists label, a, layout, base. split; [exact Hs|]. split; [exact Hi|].
    intros c H0. destruct cs as [|c0 cs]; [discriminate|].
    injection H0 as <-. now destruct Hc.
  - intros i c1 c2 H1 H2. symmetry. exact (chain_adjacent _ _ _ _ _ _ Hc H1 H2).
  - intros Hpos i j c1 c2. exact (chain_increasing _ _ _ _ _ _ _ Hc Hpos).
  - intros h. now apply load_sectors_single.
Qed.

Lemma C4_sectors_contiguous_witness :
  cell_addr (0, 16, 1024) + cell_size (0, 16, 1024) = cell_addr (0, 1040, 1024) /\
  cell_addr (0, 16, 1024) < cell_addr (0, 2064, 2).
Proof.
  assert (Hd : descriptor_cells (py "@F/0x10/02*001Kg,01*002 g") 0
               = Some ([(0, 16, 1024); (0, 1040, 1024); (0, 2064, 2)], None))
    by (vm_compute; reflexivity).
  destruct (C4_sectors_contiguous _ _ _ _ Hd) as (_ & Hc & Hi & _).
  split.
  - apply (Hc 0%nat); reflexivity.
  - apply (Hi ltac:(repeat constructor) 0%nat 2%nat);
      [lia|reflexivity|reflexivity].
Defined.

(** C4 as stated fails: [int] accepts ["000"], and the two sectors of the
    entry ["02*000Kg"] both start at the base address. *)
Lemma C4_counterexample :
  descriptor_cells (py "@F/0x10/02*000Kg") 0
  = Some ([(0, 16, 0); (0, 16, 0)], None) /\
  ~ (cell_addr (0, 16, 0) < cell_addr (0, 16, 0)).
Proof. split; [vm_compute; reflexivity|unfold cell_addr; simpl; lia]. Qed.

(** ** End-to-end scenario 1 (C3) *)






(** ** Descriptor parsing (C8, C9, C10) *)

Lemma slice_to_m2_snoc body m :
  slice_to_m2 (body ++ [m]) = firstn (length body - 1) body.
Proof.
  unfold slice_to_m2. rewrite length_app. simpl.
  replace (length body + 1 - 2)%nat with (length body - 1)%nat by lia.
  rewrite firstn_app.
  replace (length body - 1 - length body)%nat with 0%nat by lia.
  simpl. now rewrite app_nil_r.
Qed.

Lemma index_neg2_snoc body m :
  index_neg 2 (body ++ [m]) = index_neg 1 body.
Proof.
  unfold index_neg. rewrite length_app. simpl.
  destruct body as [|c body]; [reflexivity|].
  simpl length.
  replace (S (length body) + 1 <? 2)%nat with false
    by (symmetry; apply Nat.ltb_ge; lia).
  replace (S (length body) <? 1)%nat with false
    by (symmetry; apply Nat.ltb_ge; lia).
  replace (S (length body) + 1 - 2)%nat with (S (length body) - 1)%nat by lia.
  apply nth_error_app1. simpl. lia.
Qed.

Lemma index_neg1_snoc body m : index_neg 1 (body ++ [m]) = Some m.
Proof.
  unfold index_neg. rewrite length_app. simpl.
  replace (length body + 1 <? 1)%nat with false
    by (symmetry; apply Nat.ltb_ge; lia).
  replace (length body + 1 - 1)%nat with (length body) by lia.
  rewrite nth_error_app2 by lia. now rewrite Nat.sub_diag.
Qed.

Lemma slice_to_m2_app2 body u m : slice_to_m2 (body ++ [u; m]) = body.
Proof.
  change (body ++ [u; m]) with (body ++ [u] ++ [m]). rewrite app_assoc.
  rewrite slice_to_m2_snoc, length_app. simpl.
  replace (length body + 1 - 1)%nat with (length body) by lia.
  rewrite firstn_app, firstn_all, Nat.sub_diag. simpl. now rewrite app_nil_r.
Qed.

Lemma index_neg2_app2 body u m : index_neg 2 (body ++ [u; m]) = Some u.
Proof.
  change (body ++ [u; m]) with (body ++ [u] ++ [m]). rewrite app_assoc.
  rewrite index_neg2_snoc. apply index_neg1_snoc.
Qed.

Lemma index_neg1_app2 body u m : index_neg 1 (body ++ [u; m]) = Some m.
Proof.
  change (body ++ [u; m]) with (body ++ [u] ++ [m]). rewrite app_assoc.
  apply index_neg1_snoc.
Qed.

(** A string with a character at index -2 ends with that character and one
    more. *)
Lemma index_neg2_inv s u :
  index_neg 2 s = Some u -> exists m, s = slice_to_m2 s ++ [u; m].
Proof.
  unfold index_neg, slice_to_m2.
  destruct (length s <? 2)%nat eqn:E; [discriminate|].
  apply Nat.ltb_ge in E. intros H.
  set (n := (length s - 2)%nat) in *.
  assert (Hl : length (skipn n s) = 2%nat)
    by (rewrite length_skipn; unfold n; lia).
  assert (Hs : firstn n s ++ skipn n s = s) by apply firstn_skipn.
  destruct (skipn n s) as [|x [|y [|z l]]]; try discriminate.
  assert (Hx : nth_error (firstn n s ++ [x; y]) n = Some x).
  { rewrite nth_error_app2 by (rewrite length_firstn; lia).
    rewrite length_firstn.
    replace (n - Nat.min n (length s))%nat with 0%nat by (unfold n; lia).
    reflexivity. }
  rewrite Hs in Hx. assert (x = u) by congruence. subst x.
  exists y. now symmetry.
Qed.

Lemma parse_sector_app2 body u m :
  parse_sector (body ++ [u; m]) =
  match map int10 (split "*" body) with
  | [Some repeat; Some size] =>
      match SIZE_MULTIPLIERS (upper u) with
      | Some k => inr (repeat, size * k, m)
      | None => inl (KeyError (upper u))
      end
  | _ => inl ValueError
  end.
Proof.
  unfold parse_sector.
  now rewrite slice_to_m2_app2, index_neg2_app2, index_neg1_app2.
Qed.

Lemma upper_lower_k : upper "k" = "K"%char /\ upper "m" = "M"%char.
Proof. split; reflexivity. Qed.

Lemma layout_loop_error h al layout a sector e :
  In sector layout -> parse_sector sector = inl e ->
  snd (layout_loop h al layout a) <> None.
Proof.
  revert a; induction layout as [|s rest IH]; intros a Hin He; [destruct Hin|].
  simpl. destruct (parse_sector s) as [e'|[[rp sz] mode]] eqn:Es;
    [simpl; discriminate|].
  destruct Hin as [->|Hin]; [congruence|].
  destruct (repeat_loop h al (Z.to_nat rp) a sz) as [ys a1].
  specialize (IH a1 Hin He).
  destruct (layout_loop h al rest a1) as [zs r]. exact IH.
Qed.

Lemma parse_sector_mode s1 s2 :
  same_but_mode s1 s2 ->
  sans_mode (parse_sector s1) = sans_mode (parse_sector s2).
Proof.
  intros [->|(body & m1 & m2 & -> & ->)]; [reflexivity|].
  unfold parse_sector.
  rewrite !slice_to_m2_snoc, !index_neg2_snoc, !index_neg1_snoc.
  destruct (map int10 (split "*" (firstn (length body - 1) body)))
    as [|[x|] [|[y|] [|z l]]]; try reflexivity.
  destruct (index_neg 1 body) as [u|]; [|reflexivity].
  destruct (SIZE_MULTIPLIERS (upper u)); reflexivity.
Qed.

Lemma layout_loop_mode h al l1 l2 a :
  Forall2 same_but_mode l1 l2 ->
  layout_loop h al l1 a = layout_loop h al l2 a.
Proof.
  intros H; revert a; induction H as [|s1 s2 l1 l2 Hs _ IH]; intros a;
    [reflexivity|].
  simpl. apply parse_sector_mode in Hs.
  destruct (parse_sector s1) as [e1|[[r1 z1] m1]],
           (parse_sector s2) as [e2|[[r2 z2] m2]]; simpl in Hs;
    try discriminate.
  - congruence.
  - injection Hs as -> ->.
    destruct (repeat_loop h al (Z.to_nat r2) a z2) as [ys a1].
    now rewrite IH.
Qed.

(** C9.  The planner's result does not depend on the access-mode tags: two
    lists of alternates with the same alternate numbers whose descriptor
    strings differ only in mode tags give the same yielded sectors and the
    same outcome. *)
Theorem C9_mode_tag_ignored :
  forall (alts1 alts2 : list (str * Z)) (h : HexFile),
    Forall2 (fun p1 p2 => snd p1 = snd p2 /\ mode_variant (fst p1) (fst p2))
            alts1 alts2 ->
    load_sectors alts1 h = load_sectors alts2 h.
Proof.
  intros alts1 alts2 h H.
  induction H as [|[n1 a1] [n2 a2] l1 l2 [Ha Hv] _ IH]; [reflexivity|].
  simpl in Ha, Hv. subst a2. simpl.
  destruct Hv as [->|(label & a & y1 & y2 & H1 & H2 & Hl)].
  - now rewrite IH.
  - rewrite H1, H2. destruct (int0 a) as [a0|]; [|reflexivity].
    rewrite (layout_loop_mode h a1 _ _ a0 Hl).
    destruct (layout_loop h a1 (split "," y2) a0) as [ys [e|]];
      [reflexivity|].
    now rewrite IH.
Qed.

Lemma C9_mode_tag_ignored_witness :
  load_sectors [(py "@F/0x10/02*001Kg,01*002 g", 0)]
               (image [(1030, 1050)] (fun a => a))
  = load_sectors [(py "@F/0x10/02*001Ka,01*002 b", 0)]
                 (image [(1030, 1050)] (fun a => a)).
Proof.
  apply C9_mode_tag_ignored.
  constructor; [|constructor]. split; [reflexivity|]. right.
  exists (py "@F"), (py "0x10"), (py "02*001Kg,01*002 g"),
         (py "02*001Ka,01*002 b").
  split; [reflexivity|]. split; [reflexivity|].
  constructor; [|constructor; [|constructor]]; right.
  - exists (py "02*001K"), "g"%char, "a"%char. split; reflexivity.
  - exists (py "01*002 "), "g"%char, "b"%char. split; reflexivity.
Defined.

Lemma split_not_nil sep s : split sep s <> [].
Proof.
  destruct s as [|c r]; simpl; [discriminate|].
  destruct (Ascii.eqb c sep); [discriminate|].
  destruct (split sep r); discriminate.
Qed.

Lemma join_split sep s : join sep (split sep s) = s.
Proof.
  induction s as [|c r IH]; [reflexivity|]. simpl.
  destruct (Ascii.eqb_spec c sep) as [->|Hne].
  - pose proof (split_not_nil sep r) as Hn.
    destruct (split sep r) as [|x l]; [contradiction|].
    rewrite <- IH. reflexivity.
  - pose proof (split_not_nil sep r) as Hn.
    destruct (split sep r) as [|x l]; [contradiction|].
    destruct l as [|y l]; simpl in *; now rewrite <- IH.
Qed.

Lemma split_no_sep sep s : ~ In sep s -> split sep s = [s].
Proof.
  induction s as [|c r IH]; intros Hn; [reflexivity|]. simpl.
  destruct (Ascii.eqb_spec c sep) as [->|Hne]; [elim Hn; now left|].
  rewrite IH; [reflexivity|]. intros H. apply Hn. now right.
Qed.

Lemma split_app_sep sep r z :
  ~ In sep r -> split sep (r ++ sep :: z) = r :: split sep z.
Proof.
  induction r as [|c r IH]; intros Hn; simpl.
  - now rewrite Ascii.eqb_refl.
  - destruct (Ascii.eqb_spec c sep) as [->|Hne]; [elim Hn; now left|].
    rewrite IH; [reflexivity|]. intros H. apply Hn. now right.
Qed.

Lemma lstrip_In c s : In c s -> is_space c = true \/ In c (lstrip s).
Proof.
  induction s as [|x r IH]; intros Hin; [destruct Hin|]. simpl.
  destruct (is_space x) eqn:E; [|now right].
  destruct Hin as [->|Hin]; [now left|]. now apply IH.
Qed.

Lemma strip_In c s : In c s -> is_space c = true \/ In c (strip s).
Proof.
  intros Hin. unfold strip.
  destruct (lstrip_In _ _ Hin) as [H|H]; [now left|].
  apply in_rev in H. destruct (lstrip_In _ _ H) as [H'|H']; [now left|].
  right. now apply in_rev in H'.
Qed.

Lemma digits_loop_chars base acc p s v :
  digits_loop base acc p s = Some v -> Forall literal_char s.
Proof.
  revert acc p; induction s as [|c r IH]; intros acc p H; [constructor|].
  simpl in H. destruct (Ascii.eqb_spec c underscore) as [->|Hne].
  - destruct p; [discriminate|]. constructor; [|now apply IH in H].
    unfold literal_char. tauto.
  - destruct (digit_val c) as [d|] eqn:Ed; [|discriminate].
    destruct (d <? base); [|discriminate].
    constructor; [|now apply IH in H].
    unfold literal_char. right. right. right. right. congruence.
Qed.

Lemma digits_chars base s v : digits base s = Some v -> Forall literal_char s.
Proof.
  unfold digits. destruct s as [|c r]; [discriminate|].
  destruct (Ascii.eqb c underscore); [discriminate|].
  apply digits_loop_chars.
Qed.

Lemma int10_chars s v : int10 s = Some v -> Forall literal_char s.
Proof.
  unfold int10. intros H.
  assert (Hs : Forall literal_char (strip s)).
  { unfold signed in H. destruct (strip s) as [|c r]; [constructor|].
    destruct (Ascii.eqb_spec c "+") as [->|H1].
    - constructor; [unfold literal_char; tauto|]. eapply digits_chars, H.
    - destruct (Ascii.eqb_spec c "-") as [->|H2].
      + constructor; [unfold literal_char; tauto|].
        destruct (digits 10 r) eqn:E; [|discriminate].
        eapply digits_chars, E.
      + eapply digits_chars, H. }
  rewrite Forall_forall in *. intros c Hin.
  destruct (strip_In _ _ Hin) as [Hsp|Hin']; [now left|now apply Hs].
Qed.

Lemma int10_no_star s : int10 s <> None -> ~ In "*"%char s.
Proof.
  intros H Hin. destruct (int10 s) as [v|] eqn:E; [|contradiction].
  apply int10_chars in E. rewrite Forall_forall in E.
  destruct (E _ Hin) as [H1|[H1|[H1|[H1|H1]]]];
    try discriminate. now apply H1.
Qed.

Lemma known_unit_multiplier c :
  known_unit c <-> SIZE_MULTIPLIERS c <> None.
Proof.
  unfold known_unit, SIZE_MULTIPLIERS.
  destruct (Ascii.eqb_spec c " "); [split; [discriminate|tauto]|].
  destruct (Ascii.eqb_spec c "K"); [split; [discriminate|tauto]|].
  destruct (Ascii.eqb_spec c "M"); [split; [discriminate|tauto]|].
  split; [intros [H|[H|H]]; contradiction|intros H; now elim H].
Qed.

Lemma parse_sector_wf s :
  (exists v, parse_sector s = inr v) <-> wf_sector s.
Proof.
  split.
  - intros (v & H). unfold parse_sector in H.
    destruct (map int10 (split "*" (slice_to_m2 s)))
      as [|[rp|] [|[sz|] [|x l]]] eqn:Em; try discriminate.
    destruct (index_neg 2 s) as [u|] eqn:Eu; [|discriminate].
    destruct (index_neg 1 s) as [m|] eqn:E1; [|discriminate].
    destruct (SIZE_MULTIPLIERS (upper u)) as [k|] eqn:Ek; [|discriminate].
    destruct (index_neg2_inv _ _ Eu) as (m' & Hs).
    pose proof (join_split "*" (slice_to_m2 s)) as Hj.
    destruct (split "*" (slice_to_m2 s)) as [|r [|z [|y l]]];
      try discriminate.
    simpl in Em. injection Em as Hr Hz. simpl in Hj.
    exists r, z, u, m'. split; [|split; [|split]].
    + rewrite Hs at 1. rewrite <- Hj.
      now rewrite <- app_assoc.
    + congruence.
    + congruence.
    + apply known_unit_multiplier. congruence.
  - intros (r & z & u & m & -> & Hr & Hz & Hu).
    change (r ++ "*"%char :: z ++ [u; m])
      with (r ++ ("*"%char :: z) ++ [u; m]).
    rewrite app_assoc, parse_sector_app2.
    rewrite split_app_sep by now apply int10_no_star.
    rewrite split_no_sep by now apply int10_no_star.
    simpl. destruct (int10 r) as [rp|]; [|contradiction].
    destruct (int10 z) as [sz|]; [|contradiction].
    apply known_unit_multiplier in Hu.
    destruct (SIZE_MULTIPLIERS (upper u)) as [k|]; [|contradiction].
    eauto.
Qed.

Lemma layout_loop_ok h al layout a :
  snd (layout_loop h al layout a) = None <-> Forall wf_sector layout.
Proof.
  revert a; induction layout as [|s rest IH]; intros a; simpl.
  - split; [constructor|reflexivity].
  - destruct (parse_sector s) as [e|[[rp sz] mode]] eqn:Es.
    + split; [discriminate|]. intros H. inversion H as [|? ? Hs _]; subst.
      apply parse_sector_wf in Hs as (v & Hv). congruence.
    + destruct (repeat_loop h al (Z.to_nat rp) a sz) as [ys a1].
      specialize (IH a1).
      destruct (layout_loop h al rest a1) as [zs r]. simpl in *.
      rewrite IH. split.
      * intros H. constructor; [|exact H]. apply parse_sector_wf. eauto.
      * intros H. now inversion H.
Qed.

Lemma parse_sector_unit r z u m rp sz k :
  int10 r = Some rp -> int10 z = Some sz ->
  SIZE_MULTIPLIERS (upper u) = Some k ->
  parse_sector (r ++ "*"%char :: z ++ [u; m]) = inr (rp, sz * k, m).
Proof.
  intros Hr Hz Hk.
  change (r ++ "*"%char :: z ++ [u; m]) with (r ++ ("*"%char :: z) ++ [u; m]).
  rewrite app_assoc, parse_sector_app2.
  rewrite split_app_sep by (apply int10_no_star; congruence).
  rewrite split_no_sep by (apply int10_no_star; congruence).
  simpl. now rewrite Hr, Hz, Hk.
Qed.

(** C8 (amended).  Iterating [load_sectors] over one descriptor ends without
    an exception exactly when the string has three [/]-separated fields, its
    address field is a literal [int(addr, 0)] accepts (a sign is allowed) and
    every comma-separated entry has the form [repeat*sizeUnitMode]; a wrong
    number of fields or a rejected address raise ValueError before anything
    is yielded.  In a well-formed entry the size is multiplied by 1024 for
    "K", 1024*1024 for "M" and 1 for a blank. *)
Theorem C8_descriptor_format :
  forall (name : str) (al : Z) (h : HexFile),
    (snd (load_sectors [(name, al)] h) = None <-> wf_descriptor name) /\
    (length (split "/" name) <> 3%nat ->
     load_sectors [(name, al)] h = ([], Some ValueError)) /\
    (forall label a layout,
        split "/" name = [label; a; layout] -> int0 a = None ->
        load_sectors [(name, al)] h = ([], Some ValueError)) /\
    (forall r z m rp sz,
        int10 r = Some rp -> int10 z = Some sz ->
        parse_sector (r ++ "*"%char :: z ++ ["K"%char; m])
          = inr (rp, sz * 1024, m) /\
        parse_sector (r ++ "*"%char :: z ++ ["M"%char; m])
          = inr (rp, sz * (1024 * 1024), m) /\
        parse_sector (r ++ "*"%char :: z ++ [" "%char; m])
          = inr (rp, sz * 1, m)).
Proof.
  intros name al h. split; [|split; [|split]].
  - simpl. unfold wf_descriptor.
    destruct (split "/" name) as [|label [|a [|layout [|x l]]]] eqn:Es;
      try (split; [discriminate|intros (l1 & a1 & y1 & H & _); discriminate]).
    destruct (int0 a) as [a0|] eqn:Ea.
    + pose proof (layout_loop_ok h al (split "," layout) a0) as Hl.
      destruct (layout_loop h al (split "," layout) a0) as [ys [e|]];
        simpl in *.
      * split; [discriminate|]. intros (l1 & a1 & y1 & H & _ & Hf).
        injection H as <- <- <-. apply Hl in Hf. discriminate.
      * split; [|reflexivity]. intros _. exists label, a, layout.
        split; [reflexivity|]. split; [congruence|]. now apply Hl.
    + split; [discriminate|]. intros (l1 & a1 & y1 & H & Hn & _).
      injection H as <- <- <-. congruence.
  - intros Hlen. simpl.
    destruct (split "/" name) as [|label [|a [|layout [|x l]]]];
      try reflexivity. now elim Hlen.
  - intros label a layout Hs Ha. simpl. now rewrite Hs, Ha.
  - intros r z m rp sz Hr Hz.
    split; [|split]; now apply parse_sector_unit.
Qed.

Lemma C8_descriptor_format_witness :
  load_sectors [(py "@Flash/0x0800000g/04*016Kg", 0)] (image [] (fun a => a))
  = ([], Some ValueError) /\
  parse_sector (py "04" ++ "*"%char :: py "016" ++ ["K"%char; "g"%char])
  = inr (4, 16 * 1024, "g"%char).
Proof.
  destruct (C8_descriptor_format (py "@Flash/0x0800000g/04*016Kg") 0
              (image [] (fun a => a))) as (_ & _ & Ha & Hm).
  split.
  - apply (Ha (py "@Flash") (py "0x0800000g") (py "04*016Kg"));
      reflexivity.
  - apply (Hm (py "04") (py "016") "g"%char 4 16); reflexivity.
Defined.

(** C8 as stated fails: the address field ["-1"] is not an unsigned
    integer, yet [int("-1", 0)] is -1 and the descriptor is parsed without
    an exception. *)
Lemma C8_counterexample :
  split "/" (py "@F/-1/01*001Kg") = [py "@F"; py "-1"; py "01*001Kg"] /\
  int0 (py "-1") = Some (-1) /\
  cells [(py "@F/-1/01*001Kg", 0)] = ([(0, -1, 1024)], None) /\
  load_sectors [(py "@F/-1/01*001Kg", 0)] (image [(0, 4)] (fun a => a))
  = ([{| alt := 0; addr := -1;
         data := 255 :: 0 :: 1 :: 2 :: 3 :: List.repeat 255 1019 |}], None).
Proof. repeat split; vm_compute; reflexivity. Qed.

(** C10.  The unit character is uppercased before the lookup: an entry with
    unit "k" or "m" parses, with its size multiplied by 1024 or 1024*1024,
    to the same result as with "K" or "M", and in general the multiplier is
    the one of the uppercased unit character; a unit character that is not
    blank, "K" or "M" after uppercasing makes the entry, and with it the
    descriptor, fail. *)
Theorem C10_unit_case_insensitive :
  (SIZE_MULTIPLIERS (upper "k") = Some 1024 /\
   SIZE_MULTIPLIERS (upper "m") = Some (1024 * 1024)) /\
  (forall r z mode rp sz,
      int10 r = Some rp -> int10 z = Some sz ->
      parse_sector (r ++ "*"%char :: z ++ ["k"%char; mode])
        = inr (rp, sz * 1024, mode) /\
      parse_sector (r ++ "*"%char :: z ++ ["K"%char; mode])
        = inr (rp, sz * 1024, mode) /\
      parse_sector (r ++ "*"%char :: z ++ ["m"%char; mode])
        = inr (rp, sz * (1024 * 1024), mode) /\
      parse_sector (r ++ "*"%char :: z ++ ["M"%char; mode])
        = inr (rp, sz * (1024 * 1024), mode)) /\
  (forall r z u mode rp sz k,
      int10 r = Some rp -> int10 z = Some sz ->
      SIZE_MULTIPLIERS (upper u) = Some k ->
      parse_sector (r ++ "*"%char :: z ++ [u; mode]) = inr (rp, sz * k, mode)) /\
  (forall body mode,
      parse_sector (body ++ ["k"%char; mode]) = parse_sector (body ++ ["K"%char; mode]) /\
      parse_sector (body ++ ["m"%char; mode]) = parse_sector (body ++ ["M"%char; mode])) /\
  (forall sector u,
      index_neg 2 sector = Some u ->
      upper u <> " "%char -> upper u <> "K"%char -> upper u <> "M"%char ->
      (exists e, parse_sector sector = inl e) /\
      forall name al h label a layout,
        split "/" name = [label; a; layout] ->
        In sector (split "," layout) ->
        snd (load_sectors [(name, al)] h) <> None).
Proof.
  split; [split; reflexivity|]. split; [|split; [|split]].
  - intros r z mode rp sz Hr Hz.
    repeat split; now apply parse_sector_unit.
  - intros r z u mode rp sz k Hr Hz Hk. now apply parse_sector_unit.
  - intros body mode. now rewrite !parse_sector_app2.
  - intros sector u Hu H1 H2 H3.
    assert (Hfail : exists e, parse_sector sector = inl e).
    { destruct (index_neg2_inv _ _ Hu) as (m & Hs).
      rewrite Hs, parse_sector_app2.
      assert (Hn : SIZE_MULTIPLIERS (upper u) = None).
      { unfold SIZE_MULTIPLIERS.
        destruct (Ascii.eqb_spec (upper u) " "); [contradiction|].
        destruct (Ascii.eqb_spec (upper u) "K"); [contradiction|].
        destruct (Ascii.eqb_spec (upper u) "M"); [contradiction|].
        reflexivity. }
      rewrite Hn.
      destruct (map int10 (split "*" (slice_to_m2 sector)))
        as [|[x|] [|[y|] [|z l]]]; eauto. }
    split; [exact Hfail|].
    intros name al h label a layout Hs Hin. simpl. rewrite Hs.
    destruct (int0 a) as [a0|]; [|simpl; discriminate].
    destruct Hfail as (e & He).
    pose proof (layout_loop_error h al _ a0 _ _ Hin He) as Hl.
    destruct (layout_loop h al (split "," layout) a0) as [ys [e'|]];
      [simpl; discriminate|]. now elim Hl.
Qed.

Lemma C10_unit_case_insensitive_witness :
  snd (load_sectors [(py "@F/0/04*016Xg", 0)] (image [] (fun a => a))) <> None /\
  parse_sector (py "04" ++ "*"%char :: py "016" ++ ["k"%char; "g"%char])
  = inr (4, 16 * 1024, "g"%char) /\
  parse_sector (py "01" ++ "*"%char :: py "002" ++ ["m"%char; "a"%char])
  = inr (1, 2 * (1024 * 1024), "a"%char).
Proof.
  destruct C10_unit_case_insensitive as (_ & Hm & _ & _ & H).
  split; [|split].
  - pose proof (H (py "04*016Xg") "X"%char eq_refl
                  ltac:(discriminate) ltac:(discriminate) ltac:(discriminate))
      as [_ H'].
    apply (H' (py "@F/0/04*016Xg") 0 (image [] (fun a => a))
              (py "@F") (py "0") (py "04*016Xg")).
    + reflexivity.
    + left. reflexivity.
  - apply (Hm (py "04") (py "016") "g"%char 4 16); reflexivity.
  - apply (Hm (py "01") (py "002") "a"%char 1 2); reflexivity.
Defined.


(** ** Runs on the device (C5, C6, C7) *)

Lemma core_app t1 t2 : core (t1 ++ t2) = core t1 ++ core t2.
Proof. unfold core, cmds. now rewrite map_app, filter_app. Qed.

Lemma clear_count_app t1 t2 :
  clear_count (t1 ++ t2) = (clear_count t1 + clear_count t2)%nat.
Proof. unfold clear_count. now rewrite filter_app, length_app. Qed.

Lemma app_same_length {A} (x1 x2 y1 y2 : list A) :
  length x1 = length y1 -> x1 ++ x2 = y1 ++ y2 -> x1 = y1 /\ x2 = y2.
Proof.
  revert y1; induction x1 as [|a x1 IH]; intros [|b y1] Hl H;
    try discriminate; [now split|].
  simpl in *. injection H as -> H. injection Hl as Hl.
  destruct (IH _ Hl H) as [-> ->]. now split.
Qed.

Lemma failure_is_last {A} (r : Res A) t pre ev post e :
  clean r t -> t = pre ++ ev :: post -> failure ev = Some e ->
  post = [] /\ r = inl e.
Proof.
  intros Hc Ht Hf. destruct r as [e'|a]; simpl in Hc.
  - destruct Hc as (pre' & ev' & Ht' & Hpre & Hev).
    assert (Hin : ~ In ev pre').
    { intros Hin. unfold no_failure in Hpre. rewrite Forall_forall in Hpre.
      specialize (Hpre _ Hin). congruence. }
    rewrite Ht' in Ht.
    assert (Hlen : length pre' = length pre).
    { destruct (Nat.lt_trichotomy (length pre') (length pre))
        as [Hlt|[Heq|Hgt]]; [|exact Heq|].
      - exfalso.
        assert (length (pre' ++ [ev']) = length (pre ++ ev :: post))
          by now rewrite Ht.
        rewrite !length_app in H. simpl in H. lia.
      - exfalso. apply Hin.
        assert (Hn : nth_error (pre' ++ [ev']) (length pre) = Some ev).
        { rewrite Ht. rewrite nth_error_app2 by lia.
          now rewrite Nat.sub_diag. }
        rewrite nth_error_app1 in Hn by lia.
        now apply nth_error_In in Hn. }
    apply app_same_length in Ht; [|exact Hlen].
    destruct Ht as [_ Ht]. injection Ht as -> <-.
    split; [reflexivity|congruence].
  - exfalso. unfold no_failure in Hc. rewrite Forall_forall in Hc.
    assert (Hin : In ev t) by (rewrite Ht; apply in_elt).
    specialize (Hc _ Hin). congruence.
Qed.

Section Runs.

Context {D : Type} (dev : DfuDevice D).

Lemma clean_ret {A} (a : A) : always clean (@ret D A a).
Proof. intros d. simpl. constructor. Qed.

Lemma clean_call {A} c (answer : A -> Answer) method :
  (forall a, failure (c, answer a) = None) ->
  always clean (@call D A c answer method).
Proof.
  intros Hc d. unfold call. destruct (method d) as [[e|a] d']; simpl.
  - exists [], (c, Raised e). split; [reflexivity|].
    split; [constructor|reflexivity].
  - constructor; [apply Hc|constructor].
Qed.

Lemma clean_bind {A B} (m : @M D A) (f : A -> @M D B) :
  always clean m -> (forall a, always clean (f a)) ->
  always clean (bind m f).
Proof.
  intros Hm Hf d. unfold bind. specialize (Hm d).
  destruct (m d) as [[[e|a] t] d']; simpl in *; [exact Hm|].
  specialize (Hf a d'). destruct (f a d') as [[[e|b] t'] d'']; simpl in *.
  - destruct Hf as (pre & ev & -> & Hpre & Hev).
    exists (t ++ pre), ev. rewrite app_assoc. split; [reflexivity|].
    split; [|exact Hev]. now apply Forall_app.
  - now apply Forall_app.
Qed.

(** A wait on DOWNLOAD_BUSY followed by the check of the state. *)
Lemma clean_wait_check {B} timeout (k : @M D B) :
  always clean k ->
  always clean
    (bind (wait_while_state dev DFU_DOWNLOAD_BUSY timeout)
       (fun status =>
          if state_eqb (st_state status) DFU_DOWNLOAD_IDLE then k
          else raise (status_error status))).
Proof.
  intros Hk d. unfold bind, wait_while_state, call.
  destruct (dev_wait_while_state dev DFU_DOWNLOAD_BUSY timeout d)
    as [[e|status] d']; simpl.
  - exists [], (CWait DFU_DOWNLOAD_BUSY timeout, Raised e).
    split; [reflexivity|]. split; [constructor|reflexivity].
  - destruct (state_eqb (st_state status) DFU_DOWNLOAD_IDLE) eqn:E.
    + specialize (Hk d'). destruct (k d') as [[[e|b] t'] d'']; simpl in *.
      * destruct Hk as (pre & ev & -> & Hpre & Hev).
        exists ((CWait DFU_DOWNLOAD_BUSY timeout, ReturnedStatus status) :: pre), ev.
        split; [reflexivity|]. split; [|exact Hev].
        constructor; [unfold failure; simpl; now rewrite E|exact Hpre].
      * constructor; [unfold failure; simpl; now rewrite E|exact Hk].
    + simpl.
      exists [], (CWait DFU_DOWNLOAD_BUSY timeout, ReturnedStatus status).
      split; [reflexivity|]. split; [constructor|].
      unfold failure. simpl. now rewrite E.
Qed.

Lemma clean_set_alternate_safe al : always clean (set_alternate_safe dev al).
Proof.
  unfold set_alternate_safe.
  apply clean_bind; [now apply clean_call|]. intros _.
  apply clean_bind; [now apply clean_call|]. intros s.
  destruct (state_eqb s DFU_ERROR); [|apply clean_ret].
  apply clean_bind; [now apply clean_call|]. intros _.
  apply clean_bind; [now apply clean_call|]. intros _.
  apply clean_ret.
Qed.

Lemma clean_erase sectors : always clean (erase dev sectors).
Proof.
  induction sectors as [|s rest IH]; [apply clean_ret|]. simpl.
  apply clean_bind; [apply clean_set_alternate_safe|]. intros _.
  apply clean_bind; [now apply clean_call|]. intros _.
  now apply clean_wait_check.
Qed.

Lemma clean_write_blocks l : always clean (write_blocks dev l).
Proof.
  induction l as [|[n b] rest IH]; [apply clean_ret|]. simpl.
  apply clean_bind; [now apply clean_call|]. intros _.
  now apply clean_wait_check.
Qed.

Lemma clean_flash sectors : always clean (flash dev sectors).
Proof.
  induction sectors as [|s rest IH]; [apply clean_ret|]. simpl.
  apply clean_bind; [apply clean_set_alternate_safe|]. intros _.
  apply clean_bind; [now apply clean_call|]. intros _.
  apply clean_wait_check.
  apply clean_bind; [apply clean_write_blocks|]. intros _. exact IH.
Qed.

End Runs.

Lemma state_eqb_eq a b : state_eqb a b = true <-> a = b.
Proof.
  destruct a, b; simpl; split; intros H; try reflexivity; try discriminate.
  - apply Z.eqb_eq in H. now subst.
  - injection H as ->. apply Z.eqb_refl.
Qed.

Section Scripts.

Context {D : Type} (dev : DfuDevice D).

Lemma follows_ret {A} (a : A) : always (follows []) (@ret D A a).
Proof. intros d. split; [now exists []|reflexivity]. Qed.

Lemma follows_raise {A} script e : always (follows script) (@raise D A e).
Proof. intros d. split; [now exists script|discriminate]. Qed.

Lemma follows_call {A} c (answer : A -> Answer) method :
  always (follows (if is_recovery c then [] else [c]))
         (@call D A c answer method).
Proof.
  intros d. unfold call.
  destruct (method d) as [[e|a] d']; simpl; unfold follows, core; simpl;
    destruct (is_recovery c); simpl; split; try reflexivity;
    now exists [].
Qed.

Lemma follows_bind {A B} s1 s2 (m : @M D A) (f : A -> @M D B) :
  always (follows s1) m -> (forall a, always (follows s2) (f a)) ->
  always (follows (s1 ++ s2)) (bind m f).
Proof.
  intros Hm Hf d. unfold bind. specialize (Hm d). unfold follows in *.
  destruct (m d) as [[[e|a] t] d']; simpl in *.
  - destruct Hm as [(rest & ->) _]. split; [|discriminate].
    exists (rest ++ s2). now rewrite app_assoc.
  - destruct Hm as [_ Hm]. specialize (Hm a eq_refl).
    specialize (Hf a d'). destruct (f a d') as [[r t'] d'']; simpl in *.
    destruct Hf as [(rest & Hr) Hf]. rewrite core_app, Hm. split.
    + exists rest. now rewrite Hr, app_assoc.
    + intros b Hb. now rewrite (Hf b Hb).
Qed.

Lemma follows_wait_check {B} timeout script (k : @M D B) :
  always (follows script) k ->
  always (follows (CWait DFU_DOWNLOAD_BUSY timeout :: script))
    (bind (wait_while_state dev DFU_DOWNLOAD_BUSY timeout)
       (fun status =>
          if state_eqb (st_state status) DFU_DOWNLOAD_IDLE then k
          else raise (status_error status))).
Proof.
  intros Hk.
  apply (follows_bind [CWait DFU_DOWNLOAD_BUSY timeout] script).
  - apply (follows_call (CWait DFU_DOWNLOAD_BUSY timeout)).
  - intros status. destruct (state_eqb _ _); [exact Hk|apply follows_raise].
Qed.

Lemma follows_set_alternate_safe al :
  always (follows [CSetAlternate al; CGetState]) (set_alternate_safe dev al).
Proof.
  unfold set_alternate_safe.
  apply (follows_bind [CSetAlternate al] [CGetState]);
    [apply (follows_call (CSetAlternate al))|]. intros _.
  apply (follows_bind [CGetState] []); [apply (follows_call CGetState)|].
  intros s. destruct (state_eqb s DFU_ERROR); [|apply follows_ret].
  apply (follows_bind [] []); [apply (follows_call CClearStatus)|]. intros _.
  apply (follows_bind [] []);
    [apply (follows_call (CWait DFU_ERROR None))|]. intros _.
  apply follows_ret.
Qed.

Lemma follows_erase sectors :
  always (follows (erase_script sectors)) (erase dev sectors).
Proof.
  induction sectors as [|s rest IH]; [apply follows_ret|].
  simpl erase. unfold erase_script. simpl flat_map.
  fold (erase_script rest).
  apply (follows_bind [CSetAlternate (alt s); CGetState]
           (CErase (addr s) :: _)); [apply follows_set_alternate_safe|].
  intros _.
  apply (follows_bind [CErase (addr s)] (_ :: erase_script rest));
    [apply (follows_call (CErase (addr s)))|]. intros _.
  now apply follows_wait_check.
Qed.

Lemma follows_write_blocks l :
  always (follows (block_script l)) (write_blocks dev l).
Proof.
  induction l as [|[n b] rest IH]; [apply follows_ret|].
  simpl write_blocks. unfold block_script. simpl flat_map.
  fold (block_script rest).
  apply (follows_bind [CWrite n b] (_ :: block_script rest));
    [apply (follows_call (CWrite n b))|]. intros _.
  now apply follows_wait_check.
Qed.

Lemma follows_flash sectors :
  always (follows (flash_script sectors)) (flash dev sectors).
Proof.
  induction sectors as [|s rest IH]; [apply follows_ret|].
  simpl flash. unfold flash_script. simpl flat_map.
  fold (flash_script rest).
  apply (follows_bind [CSetAlternate (alt s); CGetState]
           (CSetAddress (addr s) :: CWait DFU_DOWNLOAD_BUSY None ::
            block_script (enumerate (blocks (data s))) ++ flash_script rest));
    [apply follows_set_alternate_safe|]. intros _.
  apply (follows_bind [CSetAddress (addr s)]
           (CWait DFU_DOWNLOAD_BUSY None ::
            block_script (enumerate (blocks (data s))) ++ flash_script rest));
    [apply (follows_call (CSetAddress (addr s)))|]. intros _.
  apply follows_wait_check.
  apply follows_bind; [apply follows_write_blocks|]. intros _. exact IH.
Qed.

(** What a clean run that follows a script tells about the result. *)
Lemma run_summary {A} script (r : Res A) t :
  follows script r t -> clean r t ->
  (exists rest, script = core t ++ rest) /\
  (forall a, r = inr a -> core t = script /\ no_failure t) /\
  (no_failure t -> exists a, r = inr a) /\
  (forall pre timeout post,
      t = pre ++ (CWait DFU_DOWNLOAD_BUSY timeout, Raised TimeoutError) :: post ->
      post = [] /\ r = inl TimeoutError) /\
  (forall pre timeout status post,
      t = pre ++ (CWait DFU_DOWNLOAD_BUSY timeout, ReturnedStatus status) :: post ->
      st_state status <> DFU_DOWNLOAD_IDLE ->
      post = [] /\ r = inl TypeError) /\
  (forall pre ev post e,
      t = pre ++ ev :: post -> failure ev = Some e ->
      post = [] /\ r = inl e).
Proof.
  intros [Hpre Hall] Hc. split; [exact Hpre|]. split; [|split; [|split; [|split]]].
  - intros a ->. split; [now apply (Hall a)|exact Hc].
  - intros Hn. destruct r as [e|a]; [|now exists a]. exfalso.
    destruct Hc as (pre & ev & -> & _ & Hev).
    unfold no_failure in Hn. rewrite Forall_forall in Hn.
    rewrite (Hn ev) in Hev; [discriminate|].
    apply in_or_app. right. now left.
  - intros pre timeout post Ht.
    now apply (failure_is_last r t pre _ post TimeoutError Hc Ht).
  - intros pre timeout status post Ht Hs.
    apply (failure_is_last r t pre _ post TypeError Hc Ht).
    unfold failure. simpl.
    destruct (state_eqb (st_state status) DFU_DOWNLOAD_IDLE) eqn:E;
      [|reflexivity].
    apply state_eqb_eq in E. contradiction.
  - intros pre ev post e Ht Hf. exact (failure_is_last r t pre ev post e Hc Ht Hf).
Qed.

End Scripts.

(** *** The recovery steps are in their place *)

Lemma phase_run_app p t1 t2 :
  phase_run p (t1 ++ t2) =
  match phase_run p t1 with
  | Some q => phase_run q t2
  | None => None
  end.
Proof.
  revert p; induction t1 as [|ev t1 IH]; intros p; [reflexivity|].
  simpl. destruct (phase_step p ev); [apply IH|reflexivity].
Qed.

Lemma phase_run_split p pre ev post q :
  phase_run p (pre ++ ev :: post) = Some q ->
  exists p1 p2,
    phase_run p pre = Some p1 /\ phase_step p1 ev = Some p2 /\
    phase_run p2 post = Some q.
Proof.
  rewrite phase_run_app. destruct (phase_run p pre) as [p1|]; [|discriminate].
  simpl. destruct (phase_step p1 ev) as [p2|] eqn:E; [|discriminate].
  intros H. now exists p1, p2.
Qed.

Ltac step_cases H :=
  unfold phase_step in H; simpl in H;
  repeat match type of H with
         | context [match ?x with _ => _ end] => destruct x; try discriminate H
         end.

Lemma step_into_SawError p ev :
  phase_step p ev = Some SawError ->
  p = Settled /\ ev = (CGetState, ReturnedState DFU_ERROR).
Proof. destruct ev as [c a]. intros H. step_cases H. now split. Qed.

Lemma step_into_Cleared p ev :
  phase_step p ev = Some Cleared ->
  p = SawError /\ ev = (CClearStatus, Returned).
Proof. destruct ev as [c a]. intros H. step_cases H. now split. Qed.

Lemma step_of_clear p a q :
  phase_step p (CClearStatus, a) = Some q -> p = SawError.
Proof. intros H. step_cases H; reflexivity. Qed.

Lemma step_of_wait_error p timeout w q :
  phase_step p (CWait DFU_ERROR timeout, w) = Some q ->
  p = Cleared /\ timeout = None.
Proof. intros H. step_cases H. now split. Qed.

Lemma step_of_error_state p q :
  phase_step p (CGetState, ReturnedState DFU_ERROR) = Some q ->
  q = SawError.
Proof. intros H. step_cases H. now injection H as <-. Qed.

Lemma phase_run_to_SawError p pre :
  phase_run p pre = Some SawError ->
  (pre = [] /\ p = SawError) \/
  exists pre', pre = pre' ++ [(CGetState, ReturnedState DFU_ERROR)].
Proof.
  revert p; induction pre as [|ev pre IH]; intros p H.
  - left. simpl in H. injection H as ->. now split.
  - right. simpl in H. destruct (phase_step p ev) as [q|] eqn:E; [|discriminate].
    destruct (IH q H) as [[-> ->]|(pre' & ->)].
    + apply step_into_SawError in E as [_ ->]. now exists [].
    + now exists (ev :: pre').
Qed.

Lemma phase_run_to_Cleared p pre :
  phase_run p pre = Some Cleared ->
  (pre = [] /\ p = Cleared) \/
  exists pre', pre = pre' ++ [(CClearStatus, Returned)].
Proof.
  revert p; induction pre as [|ev pre IH]; intros p H.
  - left. simpl in H. injection H as ->. now split.
  - right. simpl in H. destruct (phase_step p ev) as [q|] eqn:E; [|discriminate].
    destruct (IH q H) as [[-> ->]|(pre' & ->)].
    + apply step_into_Cleared in E as [_ ->]. now exists [].
    + now exists (ev :: pre').
Qed.

Lemma phase_run_cons p ev t :
  phase_run p (ev :: t) =
  match phase_step p ev with
  | Some q => phase_run q t
  | None => None
  end.
Proof. reflexivity. Qed.

Lemma recovered_in_place t : recovered t -> recovery_in_place t.
Proof.
  unfold recovered. intros Hr. split; [|split].
  - intros pre post ->.
    apply phase_run_split in Hr as (p1 & p2 & _ & Hs & Hpost).
    apply step_of_error_state in Hs. subst p2.
    destruct post as [|[c a] post']; [discriminate|].
    rewrite phase_run_cons in Hpost.
    destruct (phase_step SawError (c, a)) as [q|] eqn:E; [|discriminate].
    assert (Hc : c = CClearStatus) by (step_cases E; reflexivity).
    subst c. exists a, post'. split; [reflexivity|]. intros ->.
    cbn in E. injection E as <-.
    destruct post' as [|[c w] post'']; [discriminate|].
    rewrite phase_run_cons in Hpost.
    destruct (phase_step Cleared (c, w)) as [q|] eqn:E; [|discriminate].
    assert (Hc : c = CWait DFU_ERROR None) by (step_cases E; reflexivity).
    subst c. now exists w, post''.
  - intros pre a post ->.
    apply phase_run_split in Hr as (p1 & p2 & Hpre & Hs & _).
    apply step_of_clear in Hs. subst p1.
    apply phase_run_to_SawError in Hpre as [[_ H]|H]; [discriminate|exact H].
  - intros pre timeout w post ->.
    apply phase_run_split in Hr as (p1 & p2 & Hpre & Hs & _).
    apply step_of_wait_error in Hs as [-> ->]. split; [reflexivity|].
    apply phase_run_to_Cleared in Hpre as [[_ H]|H]; [discriminate|exact H].
Qed.

Section Recovery.

Context {D : Type} (dev : DfuDevice D).

Lemma recovered_ret {A} (a : A) :
  always (fun _ t => recovered t) (@ret D A a).
Proof. intros d. reflexivity. Qed.

Lemma recovered_raise {A} e :
  always (fun _ t => recovered t) (@raise D A e).
Proof. intros d. reflexivity. Qed.

Lemma recovered_call {A} c (answer : A -> Answer) method :
  (forall a, phase_step Settled (c, a) = Some Settled) ->
  always (fun _ t => recovered t) (@call D A c answer method).
Proof.
  intros Hc d. unfold call.
  destruct (method d) as [[e|a] d']; cbv beta; cbn [fst snd];
    unfold recovered; now rewrite phase_run_cons, Hc.
Qed.

Lemma recovered_bind {A B} (m : @M D A) (f : A -> @M D B) :
  always (fun _ t => recovered t) m ->
  (forall a, always (fun _ t => recovered t) (f a)) ->
  always (fun _ t => recovered t) (bind m f).
Proof.
  intros Hm Hf d. unfold bind. specialize (Hm d).
  destruct (m d) as [[[e|a] t] d']; simpl in *; [exact Hm|].
  specialize (Hf a d'). destruct (f a d') as [[r t'] d'']; simpl in *.
  unfold recovered in *. now rewrite phase_run_app, Hm.
Qed.

Lemma recovered_wait_check {B} timeout (k : @M D B) :
  always (fun _ t => recovered t) k ->
  always (fun _ t => recovered t)
    (bind (wait_while_state dev DFU_DOWNLOAD_BUSY timeout)
       (fun status =>
          if state_eqb (st_state status) DFU_DOWNLOAD_IDLE then k
          else raise (status_error status))).
Proof.
  intros Hk. apply recovered_bind; [now apply recovered_call|].
  intros status. destruct (state_eqb _ _); [exact Hk|apply recovered_raise].
Qed.

Lemma recovered_set_alternate_safe al :
  always (fun _ t => recovered t) (set_alternate_safe dev al).
Proof.
  intros d.
  unfold set_alternate_safe, bind, set_alternate, get_state, clear_status,
    wait_while_state, call, ret, recovered.
  destruct (dev_set_alternate dev al d) as [[e|[]] d1]; [reflexivity|].
  destruct (dev_get_state dev d1) as [[e|s] d2]; [reflexivity|].
  destruct (state_eqb s DFU_ERROR) eqn:E.
  - apply state_eqb_eq in E. subst s.
    destruct (dev_clear_status dev d2) as [[e|[]] d3]; [reflexivity|].
    now destruct (dev_wait_while_state dev DFU_ERROR None d3) as [[e|st] d4].
  - destruct s; try reflexivity. discriminate.
Qed.

Lemma recovered_erase sectors :
  always (fun _ t => recovered t) (erase dev sectors).
Proof.
  induction sectors as [|s rest IH]; [apply recovered_ret|]. simpl.
  apply recovered_bind; [apply recovered_set_alternate_safe|]. intros _.
  apply recovered_bind; [now apply recovered_call|]. intros _.
  now apply recovered_wait_check.
Qed.



End Recovery.

(** C5 (code defect at line 78).  Every run of [erase], on any device: the
    commands issued, recovery steps apart, are an initial part of the
    sequence "select the alternate, read the state, erase at the sector's
    address, wait while DOWNLOAD_BUSY with timeout len(data)/32" taken over
    the sectors in order, and the whole sequence when [erase] returns; the
    recovery steps of the safe selection are in their place.  A wait that
    raises TimeoutError is the last event of the run and [erase] raises
    TimeoutError.  A wait that ends in a state other than DOWNLOAD_IDLE is
    the last event of the run too and nothing is issued for the remaining
    sectors, but the exception is TypeError: the message cannot be formatted
    from the status tuple, so no error carrying the observed status is
    raised.  Without such an event the run completes. *)
Theorem C5_erase_in_order_abort :
  forall (D : Type) (dev : DfuDevice D) (sectors : list Sector) (d : D),
    let r := fst (fst (erase dev sectors d)) in
    let t := snd (fst (erase dev sectors d)) in
    (exists rest, erase_script sectors = core t ++ rest) /\
    (forall a, r = inr a -> core t = erase_script sectors /\ no_failure t) /\
    (no_failure t -> exists a, r = inr a) /\
    (forall pre timeout post,
        t = pre ++ (CWait DFU_DOWNLOAD_BUSY timeout, Raised TimeoutError) :: post ->
        post = [] /\ r = inl TimeoutError) /\
    (forall pre timeout status post,
        t = pre ++ (CWait DFU_DOWNLOAD_BUSY timeout, ReturnedStatus status) :: post ->
        st_state status <> DFU_DOWNLOAD_IDLE ->
        post = [] /\ r = inl TypeError /\ r <> inl (RuntimeError status)) /\
    (forall pre ev post e,
        t = pre ++ ev :: post -> failure ev = Some e ->
        post = [] /\ r = inl e) /\
    recovery_in_place t.
Proof.
  intros D dev sectors d r t.
  destruct (run_summary (erase_script sectors) r t
              (follows_erase dev sectors d) (clean_erase dev sectors d))
    as (H1 & H2 & H3 & H4 & H5 & H6).
  repeat (split; [assumption|]). split; [|split; [exact H6|]].
  - intros pre timeout status post Ht Hs.
    destruct (H5 pre timeout status post Ht Hs) as [Hp Hr].
    split; [exact Hp|]. split; [exact Hr|]. rewrite Hr. discriminate.
  - apply recovered_in_place. apply (recovered_erase dev sectors d).
Qed.

Lemma C5_erase_in_order_abort_witness :
  fst (fst (erase sim_device small_sector error_on_first)) = inl TypeError /\
  fst (fst (erase sim_device small_sector error_on_first))
    <> inl (RuntimeError (idle_status DFU_ERROR)) /\
  fst (fst (erase sim_device three_sectors timeout_on_second))
    = inl TimeoutError.
Proof.
  destruct (C5_erase_in_order_abort Sim sim_device small_sector
              error_on_first) as (_ & _ & _ & _ & H & _).
  destruct (H [ (CSetAlternate 0, Returned);
                (CGetState, ReturnedState DFU_IDLE);
                (CErase 134217728, Returned) ]
              (Some (4 # 32)) (idle_status DFU_ERROR) [] eq_refl
              ltac:(discriminate)) as (_ & Hr & Hn).
  split; [exact Hr|]. split; [exact Hn|].
  destruct (C5_erase_in_order_abort Sim sim_device three_sectors
              timeout_on_second) as (_ & _ & _ & H' & _).
  exact (proj2 (H' [ (CSetAlternate 0, Returned);
                     (CGetState, ReturnedState DFU_IDLE);
                     (CErase 16, Returned);
                     (CWait DFU_DOWNLOAD_BUSY (Some (64 # 32)),
                      ReturnedStatus (idle_status DFU_DOWNLOAD_IDLE));
                     (CSetAlternate 0, Returned);
                     (CGetState, ReturnedState DFU_IDLE);
                     (CErase 80, Returned) ]
                   (Some (32 # 32)) [] eq_refl)).
Defined.

Lemma sim_wait_leaves : wait_leaves_state sim_device.
Proof.
  assert (Hs : forall awaited s, settle awaited s <> awaited).
  { intros awaited s. unfold settle.
    destruct (state_eqb s awaited) eqn:E.
    - destruct (state_eqb awaited DFU_DOWNLOAD_IDLE) eqn:E'.
      + apply state_eqb_eq in E'. subst. discriminate.
      + intros <-. discriminate.
    - intros H. rewrite H in E.
      assert (state_eqb awaited awaited = true) by now apply state_eqb_eq.
      congruence. }
  intros s t d status d' H. simpl in H. unfold sim_wait in H.
  destruct (sim_waits d) as [|[e|s'] rest]; try discriminate;
    injection H as <- _; simpl; apply Hs.
Qed.

Ltac locate_clear H pre :=
  do 6 (try (destruct pre as [|? pre]; simpl in H; try discriminate H));
  try (injection H; intros; subst; reflexivity).

(** C6.  [set_alternate_safe] first selects the alternate and reads the
    state.  If the device then reports ERROR, exactly one clear-status
    request is issued, right after it, followed by a wait on the ERROR state
    (without timeout), and the function returns only after that wait has
    returned; with a [wait_while_state] that returns once the device has
    left the awaited state, the device is then out of ERROR.  If the device
    reports another state, no clear-status request is issued and the
    function returns right after get_state.  A clear-status request is
    never issued before ERROR has been read. *)
Theorem C6_set_alternate_safe_clears_error :
  forall (D : Type) (dev : DfuDevice D) (al : Z) (d : D),
    let r := fst (fst (set_alternate_safe dev al d)) in
    let t := snd (fst (set_alternate_safe dev al d)) in
    (forall d1 d2,
        dev_set_alternate dev al d = (inr tt, d1) ->
        dev_get_state dev d1 = (inr DFU_ERROR, d2) ->
        clear_count t = 1%nat /\
        (exists a rest,
            t = [(CSetAlternate al, Returned);
                 (CGetState, ReturnedState DFU_ERROR);
                 (CClearStatus, a)] ++ rest /\
            (r = inr tt ->
             exists status,
               a = Returned /\
               rest = [(CWait DFU_ERROR None, ReturnedStatus status)] /\
               (wait_leaves_state dev -> st_state status <> DFU_ERROR))) /\
        (forall d3 status d4,
            dev_clear_status dev d2 = (inr tt, d3) ->
            dev_wait_while_state dev DFU_ERROR None d3 = (inr status, d4) ->
            set_alternate_safe dev al d =
            (inr tt,
             [(CSetAlternate al, Returned);
              (CGetState, ReturnedState DFU_ERROR);
              (CClearStatus, Returned);
              (CWait DFU_ERROR None, ReturnedStatus status)], d4))) /\
    (forall d1 s d2,
        dev_set_alternate dev al d = (inr tt, d1) ->
        dev_get_state dev d1 = (inr s, d2) ->
        s <> DFU_ERROR ->
        set_alternate_safe dev al d =
        (inr tt,
         [(CSetAlternate al, Returned); (CGetState, ReturnedState s)], d2) /\
        clear_count t = 0%nat) /\
    (forall pre a post,
        t = pre ++ (CClearStatus, a) :: post ->
        pre = [(CSetAlternate al, Returned);
               (CGetState, ReturnedState DFU_ERROR)]) /\
    (clear_count t <= 1)%nat.
Proof.
  intros D dev al d.
  unfold set_alternate_safe, bind, set_alternate, get_state, clear_status,
    wait_while_state, call, ret.
  destruct (dev_set_alternate dev al d) as [[e|[]] d1]; simpl.
  { split; [intros ? ? H; discriminate H|].
    split; [intros ? ? ? H; discriminate H|].
    split; [|unfold clear_count; simpl; lia].
    intros pre a post H; locate_clear H pre. }
  destruct (dev_get_state dev d1) as [[e|s] d2] eqn:Eg; simpl.
  { split; [intros ? ? H1 H2; injection H1 as <-; rewrite Eg in H2;
            discriminate H2|].
    split; [intros ? ? ? H1 H2; injection H1 as <-; rewrite Eg in H2;
            discriminate H2|].
    split; [|unfold clear_count; simpl; lia].
    intros pre a post H; locate_clear H pre. }
  destruct (state_eqb s DFU_ERROR) eqn:E.
  - apply state_eqb_eq in E. subst s.
    assert (Hother : forall d1' s d2',
               (@inr Exn unit tt, d1) = (inr tt, d1') ->
               dev_get_state dev d1' = (inr s, d2') -> s <> DFU_ERROR -> False).
    { intros ? ? ? H1 H2 Hs. injection H1 as <-. rewrite Eg in H2.
      injection H2 as <- _. now elim Hs. }
    destruct (dev_clear_status dev d2) as [[e|[]] d3] eqn:Ec; simpl.
    { split.
      - intros ? ? H1 H2. injection H1 as <-. rewrite Eg in H2.
        injection H2 as <-.
        split; [reflexivity|]. split.
        + exists (Raised e), []. split; [reflexivity|discriminate].
        + intros ? ? ? H. rewrite Ec in H. discriminate H.
      - split; [intros ? ? ? H1 H2 Hs; elim (Hother _ _ _ H1 H2 Hs)|].
        split; [|unfold clear_count; simpl; lia].
        intros pre a post H; locate_clear H pre. }
    destruct (dev_wait_while_state dev DFU_ERROR None d3)
      as [[e|status] d4] eqn:Ew; simpl.
    { split.
      - intros ? ? H1 H2. injection H1 as <-. rewrite Eg in H2.
        injection H2 as <-.
        split; [reflexivity|]. split.
        + exists Returned, [(CWait DFU_ERROR None, Raised e)].
          split; [reflexivity|discriminate].
        + intros ? ? ? H H'. rewrite Ec in H. injection H as <-.
          rewrite Ew in H'. discriminate H'.
      - split; [intros ? ? ? H1 H2 Hs; elim (Hother _ _ _ H1 H2 Hs)|].
        split; [|unfold clear_count; simpl; lia].
        intros pre a post H; locate_clear H pre. }
    split.
    + intros ? ? H1 H2. injection H1 as <-. rewrite Eg in H2.
      injection H2 as <-.
      split; [reflexivity|]. split.
      * exists Returned, [(CWait DFU_ERROR None, ReturnedStatus status)].
        split; [reflexivity|]. intros _. exists status.
        split; [reflexivity|]. split; [reflexivity|].
        intros Hw. exact (Hw _ _ _ _ _ Ew).
      * intros ? ? ? H H'. rewrite Ec in H. injection H as <-.
        rewrite Ew in H'. injection H' as <- <-. reflexivity.
    + split; [intros ? ? ? H1 H2 Hs; elim (Hother _ _ _ H1 H2 Hs)|].
      split; [|unfold clear_count; simpl; lia].
      intros pre a post H; locate_clear H pre.
  - assert (Hs : s <> DFU_ERROR).
    { intros ->. simpl in E. discriminate. }
    simpl. split.
    + intros ? ? H1 H2. injection H1 as <-. rewrite Eg in H2.
      injection H2 as H2 _. now elim Hs.
    + split.
      * intros ? ? ? H1 H2 _. injection H1 as <-. rewrite Eg in H2.
        injection H2 as <- <-. now split.
      * split; [|unfold clear_count; simpl; lia].
        intros pre a post H; locate_clear H pre.
Qed.

Lemma C6_set_alternate_safe_clears_error_witness :
  clear_count (snd (fst (set_alternate_safe sim_device 3 in_error))) = 1%nat /\
  (exists a rest,
      snd (fst (set_alternate_safe sim_device 3 in_error))
      = [(CSetAlternate 3, Returned); (CGetState, ReturnedState DFU_ERROR);
         (CClearStatus, a)] ++ rest /\
      (fst (fst (set_alternate_safe sim_device 3 in_error)) = inr tt ->
       exists status,
         a = Returned /\
         rest = [(CWait DFU_ERROR None, ReturnedStatus status)] /\
         (wait_leaves_state sim_device -> st_state status <> DFU_ERROR))) /\
  (forall d3 status d4,
      dev_clear_status sim_device in_error = (inr tt, d3) ->
      dev_wait_while_state sim_device DFU_ERROR None d3 = (inr status, d4) ->
      set_alternate_safe sim_device 3 in_error =
      (inr tt,
       [(CSetAlternate 3, Returned); (CGetState, ReturnedState DFU_ERROR);
        (CClearStatus, Returned);
        (CWait DFU_ERROR None, ReturnedStatus status)], d4)).
Proof.
  destruct (C6_set_alternate_safe_clears_error Sim sim_device 3 in_error)
    as (H & _).
  apply (H in_error in_error); reflexivity.
Defined.

(** *** The blocks of a payload *)

Lemma chunks_concat (T m : nat) (l : list Z) :
  (length l <= m * T)%nat ->
  concat (map (fun i => firstn T (skipn i l))
              (map (fun k => k * T)%nat (seq 0 m))) = l.
Proof.
  revert l; induction m as [|m IH]; intros l Hl.
  - destruct l; [reflexivity|simpl in Hl; lia].
  - rewrite <- cons_seq, <- seq_shift. simpl map. simpl concat.
    rewrite !map_map.
    rewrite (map_ext _ (fun k => firstn T (skipn (k * T) (skipn T l)))).
    + rewrite <- (map_map (fun k => (k * T)%nat)
                          (fun i => firstn T (skipn i (skipn T l)))).
      rewrite IH; [apply firstn_skipn|].
      rewrite length_skipn. lia.
    + intros k. rewrite skipn_skipn. f_equal. f_equal. lia.
Qed.

Lemma range_step_covers (n T : nat) :
  (0 < T)%nat -> (n <= (n + T - 1) / T * T)%nat.
Proof.
  intros HT.
  pose proof (Nat.div_mod_eq (n + T - 1) T) as H.
  pose proof (Nat.mod_upper_bound (n + T - 1) T) as Hm.
  nia.
Qed.

Lemma range_step_below (n T k : nat) :
  (0 < T)%nat -> (k < (n + T - 1) / T)%nat -> (k * T < n)%nat.
Proof.
  intros HT Hk.
  pose proof (Nat.div_mod_eq (n + T - 1) T) as H.
  nia.
Qed.


Lemma enumerate_snd {A} (l : list A) : map snd (enumerate l) = l.
Proof.
  unfold enumerate. generalize 0%nat.
  induction l as [|x l IH]; intros n; simpl; [reflexivity|].
  now rewrite IH.
Qed.

Lemma TRANSFER_SIZE_pos : (0 < TRANSFER_SIZE)%nat.
Proof. unfold TRANSFER_SIZE. lia. Qed.

Lemma blocks_concat (l : list Z) : concat (blocks l) = l.
Proof.
  unfold blocks, range_step. apply chunks_concat.
  apply range_step_covers, TRANSFER_SIZE_pos.
Qed.




(** * Further properties of the planner *)

(** X1.  For a sector of positive size and non-empty segments, the overlap
    test holds exactly when some segment and the sector share an address. *)
Theorem touched_iff_shared_address :
  forall (segs : list (Z * Z)) (A S : Z),
    0 < S ->
    Forall (fun se => fst se < snd se) segs ->
    (touched segs A S = true <->
     exists s e a, In (s, e) segs /\ s <= a < e /\ A <= a < A + S).
Proof.
  intros segs A S HS Hne. rewrite touched_spec. rewrite Forall_forall in Hne.
  split.
  - intros (s & e & Hin & H). specialize (Hne _ Hin). simpl in Hne.
    destruct H as [[H1 H2]|[H1 H2]].
    + exists s, e, A. split; [exact Hin|lia].
    + exists s, e, s. split; [exact Hin|lia].
  - intros (s & e & a & Hin & Ha & HA). exists s, e. split; [exact Hin|].
    destruct (Z_lt_ge_dec s A); [left|right]; lia.
Qed.

Lemma touched_iff_shared_address_witness :
  touched [(10, 20); (40, 41)] 16 8 = true <->
  exists s e a, In (s, e) [(10, 20); (40, 41)] /\ s <= a < e /\ 16 <= a < 16 + 8.
Proof.
  apply touched_iff_shared_address; [lia|].
  repeat constructor.
Defined.

(** X2.  No image byte inside the layout is lost: when an address of a
    visited sector of positive size holds a byte of the image, the planner
    yields that sector and its payload has that byte at the offset of the
    address. *)
Theorem image_byte_is_planned :
  forall (alternates : list (str * Z)) (h : HexFile) (c : Cell) (a b : Z),
    HexFile_ok h ->
    In c (fst (cells alternates)) ->
    0 < cell_size c ->
    cell_addr c <= a < cell_addr c + cell_size c ->
    content h a = Some b ->
    exists s,
      In s (fst (load_sectors alternates h)) /\
      alt s = cell_alt c /\ addr s = cell_addr c /\
      nth_error (data s) (Z.to_nat (a - addr s)) = Some b.
Proof.
  intros alternates h c a b Hok Hc Hsz Ha Hb.
  assert (Ht : touched (segments h) (cell_addr c) (cell_size c) = true).
  { assert (Hne : content h a <> None) by congruence.
    apply (segments_content h Hok) in Hne as (s & e & Hin & Hr).
    apply touched_spec. exists s, e. split; [exact Hin|].
    destruct (Z_lt_ge_dec s (cell_addr c)); [left|right]; lia. }
  exists {| alt := cell_alt c; addr := cell_addr c;
            data := tobinarray h (cell_addr c) (cell_addr c + cell_size c - 1) |}.
  split; [|split; [reflexivity|split; [reflexivity|]]].
  - rewrite load_sectors_cells. simpl. apply in_flat_map. exists c.
    split; [exact Hc|]. unfold plan. rewrite Ht. now left.
  - simpl. rewrite (tobinarray_range h Hok) by lia.
    replace (cell_addr c + cell_size c - 1 - cell_addr c + 1)
      with (cell_size c) by lia.
    rewrite nth_error_map. unfold zrange. rewrite nth_error_map.
    rewrite nth_error_seq.
    replace (Z.to_nat (a - cell_addr c) <? Z.to_nat (cell_size c))%nat
      with true by (symmetry; apply Nat.ltb_lt; lia).
    simpl. unfold padded.
    replace (cell_addr c + Z.of_nat (Z.to_nat (a - cell_addr c))) with a by lia.
    now rewrite Hb.
Qed.

Lemma image_byte_is_planned_witness :
  exists s,
    In s (fst (load_sectors [(py "@F/16/02*008 g", 0)]
                            (image [(26, 28)] (fun a => a + 100)))) /\
    alt s = 0 /\ addr s = 24 /\
    nth_error (data s) (Z.to_nat (27 - addr s)) = Some 127.
Proof.
  apply (image_byte_is_planned [(py "@F/16/02*008 g", 0)]
           (image [(26, 28)] (fun a => a + 100)) (0, 24, 8) 27 127).
  - apply image_ok. repeat constructor.
  - vm_compute. right. left. reflexivity.
  - reflexivity.
  - unfold cell_addr, cell_size. simpl. lia.
  - reflexivity.
Defined.

Lemma chain_sorted a cs a' :
  chain a cs a' -> Forall (fun c => 0 < cell_size c) cs ->
  StronglySorted (fun c1 c2 => cell_addr c1 + cell_size c1 <= cell_addr c2) cs.
Proof.
  revert a; induction cs as [|c cs IH]; intros a Hc Hpos; [constructor|].
  destruct Hc as [Ha Hc]. inversion Hpos as [|? ? Hk Hpos']; subst.
  constructor; [exact (IH _ Hc Hpos')|].
  apply Forall_forall. intros c' Hin.
  pose proof (chain_lower_bound _ _ _ _ Hc Hpos' Hin). lia.
Qed.

Lemma plan_sorted h cs :
  HexFile_ok h ->
  Forall (fun c => 0 < cell_size c) cs ->
  StronglySorted (fun c1 c2 => cell_addr c1 + cell_size c1 <= cell_addr c2) cs ->
  StronglySorted
    (fun s1 s2 => addr s1 + Z.of_nat (length (data s1)) <= addr s2)
    (flat_map (plan h) cs).
Proof.
  intros Hok Hpos Hs. induction Hs as [|c cs Hs IH Hall]; [constructor|].
  inversion Hpos as [|? ? Hc Hpos']; subst. specialize (IH Hpos').
  simpl. unfold plan at 1.
  destruct (touched (segments h) (cell_addr c) (cell_size c)); [|exact IH].
  simpl. constructor; [exact IH|].
  apply Forall_forall. intros s Hin. apply in_flat_map in Hin as (c' & Hc' & Hp).
  apply plan_inv in Hp as [_ ->]. simpl.
  rewrite Forall_forall in Hall. specialize (Hall _ Hc').
  destruct (payload_positive h (cell_addr c) (cell_size c) Hok Hc) as [Hl _].
  rewrite Hl. exact Hall.
Qed.

(** X3.  For a layout whose sectors all have positive size, the sectors
    yielded for one descriptor are in ascending address order and their
    payloads do not overlap: each one ends at or before the start of every
    later one. *)
Theorem planned_sectors_disjoint_ascending :
  forall (name : str) (al : Z) (h : HexFile) (cs : list Cell) (r : option PyExn),
    HexFile_ok h ->
    descriptor_cells name al = Some (cs, r) ->
    Forall (fun c => 0 < cell_size c) cs ->
    StronglySorted
      (fun s1 s2 => addr s1 + Z.of_nat (length (data s1)) <= addr s2)
      (fst (load_sectors [(name, al)] h)).
Proof.
  intros name al h cs r Hok Hd Hpos.
  rewrite (load_sectors_single _ _ h _ _ Hd). simpl.
  apply plan_sorted; [exact Hok|exact Hpos|].
  unfold descriptor_cells in Hd.
  destruct (split "/" name) as [|label [|a [|layout [|x l]]]]; try discriminate.
  destruct (int0 a) as [base|]; [|discriminate].
  destruct (layout_cells_chain al (split "," layout) base) as (a' & Hc).
  injection Hd as Hd. rewrite Hd in Hc.
  exact (chain_sorted _ _ _ Hc Hpos).
Qed.

Lemma planned_sectors_disjoint_ascending_witness :
  StronglySorted
    (fun s1 s2 => addr s1 + Z.of_nat (length (data s1)) <= addr s2)
    (fst (load_sectors [(py "@F/16/04*008 g", 0)]
                       (image [(20, 34); (44, 45)] (fun a => a)))).
Proof.
  apply (planned_sectors_disjoint_ascending (py "@F/16/04*008 g") 0
           (image [(20, 34); (44, 45)] (fun a => a))
           [(0, 16, 8); (0, 24, 8); (0, 32, 8); (0, 40, 8)] None).
  - apply image_ok. repeat constructor.
  - vm_compute. reflexivity.
  - repeat constructor.
Defined.

(** X4.  Alternates compose: when the iteration over a first list of
    alternates ends without exception, the planner continues with the second
    list and yields the sectors of both, in order; when it ends with an
    exception, nothing of the second list is looked at. *)
Theorem load_sectors_app :
  forall (alts1 alts2 : list (str * Z)) (h : HexFile),
    (snd (load_sectors alts1 h) = None ->
     load_sectors (alts1 ++ alts2) h =
     (fst (load_sectors alts1 h) ++ fst (load_sectors alts2 h),
      snd (load_sectors alts2 h))) /\
    (snd (load_sectors alts1 h) <> None ->
     load_sectors (alts1 ++ alts2) h = load_sectors alts1 h).
Proof.
  intros alts1 alts2 h.
  induction alts1 as [|[name al] rest [IH1 IH2]].
  - simpl. split; [intros _; now destruct (load_sectors alts2 h)|
                   intros H; now elim H].
  - simpl.
    destruct (split "/" name) as [|label [|a [|layout [|x l]]]];
      try (split; [discriminate|reflexivity]).
    destruct (int0 a) as [a0|]; [|split; [discriminate|reflexivity]].
    destruct (layout_loop h al (split "," layout) a0) as [ys [e|]];
      [split; [discriminate|reflexivity]|].
    destruct (load_sectors rest h) as [zs r] eqn:Er. simpl in *. split.
    + intros Hr. rewrite (IH1 Hr). now rewrite app_assoc.
    + intros Hr. now rewrite (IH2 Hr).
Qed.

Lemma load_sectors_app_witness :
  load_sectors ([(py "@A/16/01*008 g", 0)] ++ [(py "@B/64/01*008 g", 1)])
               (image [(20, 70)] (fun a => a))
  = (fst (load_sectors [(py "@A/16/01*008 g", 0)] (image [(20, 70)] (fun a => a)))
     ++ fst (load_sectors [(py "@B/64/01*008 g", 1)] (image [(20, 70)] (fun a => a))),
     snd (load_sectors [(py "@B/64/01*008 g", 1)] (image [(20, 70)] (fun a => a)))) /\
  load_sectors ([(py "@A/16", 0)] ++ [(py "@B/64/01*008 g", 1)])
               (image [(20, 70)] (fun a => a))
  = load_sectors [(py "@A/16", 0)] (image [(20, 70)] (fun a => a)).
Proof.
  split.
  - apply (load_sectors_app [(py "@A/16/01*008 g", 0)]
             [(py "@B/64/01*008 g", 1)] (image [(20, 70)] (fun a => a))).
    reflexivity.
  - apply (load_sectors_app [(py "@A/16", 0)]
             [(py "@B/64/01*008 g", 1)] (image [(20, 70)] (fun a => a))).
    discriminate.
Defined.

(** X5.  A malformed entry stops the iteration where it stands: the sectors
    of the well-formed entries before it have been yielded, the exception is
    the one of that entry, and the entries after it are never parsed. *)
Theorem layout_error_keeps_prefix :
  forall (h : HexFile) (al : Z) (good : list str) (bad : str)
         (rest : list str) (a : Z) (e : PyExn),
    Forall wf_sector good ->
    parse_sector bad = inl e ->
    layout_loop h al (good ++ bad :: rest) a =
    (fst (layout_loop h al good a), Some e).
Proof.
  intros h al good bad rest a e Hg Hb. revert a.
  induction Hg as [|s good Hs Hg IH]; intros a; simpl.
  - now rewrite Hb.
  - apply parse_sector_wf in Hs as ([[rp sz] mode] & Hs). rewrite Hs.
    destruct (repeat_loop h al (Z.to_nat rp) a sz) as [ys a1].
    rewrite IH. destruct (layout_loop h al good a1) as [zs r]. reflexivity.
Qed.

Lemma layout_error_keeps_prefix_witness :
  layout_loop (image [(16, 20)] (fun a => a)) 0
    ([py "01*004 g"] ++ py "01+004 g" :: [py "junk"]) 16
  = (fst (layout_loop (image [(16, 20)] (fun a => a)) 0 [py "01*004 g"] 16),
     Some ValueError).
Proof.
  apply layout_error_keeps_prefix.
  - constructor; [|constructor].
    exists (py "01"), (py "004"), " "%char, "g"%char.
    split; [reflexivity|]. split; [discriminate|].
    split; [discriminate|left; reflexivity].
  - reflexivity.
Defined.

(** X6.  An entry whose repeat count is zero or negative contributes no
    sector and leaves the address cursor where it is: the layout behaves as
    if the entry were absent. *)
Theorem nonpositive_repeat_is_skipped :
  forall (h : HexFile) (al : Z) (sector : str) (rest : list str) (a : Z)
         (repeat size : Z) (mode : ascii),
    parse_sector sector = inr (repeat, size, mode) ->
    repeat <= 0 ->
    layout_loop h al (sector :: rest) a = layout_loop h al rest a.
Proof.
  intros h al sector rest a rp sz mode Hp Hr. simpl. rewrite Hp.
  replace (Z.to_nat rp) with 0%nat by lia. simpl.
  now destruct (layout_loop h al rest a).
Qed.

Lemma nonpositive_repeat_is_skipped_witness :
  layout_loop (image [(0, 64)] (fun a => a)) 0
    (py "-3*016 g" :: [py "01*004 g"]) 16
  = layout_loop (image [(0, 64)] (fun a => a)) 0 [py "01*004 g"] 16.
Proof.
  apply (nonpositive_repeat_is_skipped _ _ _ _ _ (-3) 16 "g"%char).
  - reflexivity.
  - lia.
Defined.

(** X7.  With an image that has no segment the planner yields nothing,
    whatever the alternates are; how the iteration ends still depends on the
    descriptors alone. *)
Theorem empty_image_plans_nothing :
  forall (alternates : list (str * Z)) (h : HexFile),
    segments h = [] ->
    load_sectors alternates h = ([], snd (cells alternates)).
Proof.
  intros alternates h Hs. rewrite load_sectors_cells. f_equal.
  induction (fst (cells alternates)) as [|c cs IH]; [reflexivity|].
  simpl. unfold plan at 1. rewrite Hs. simpl. exact IH.
Qed.

Lemma empty_image_plans_nothing_witness :
  load_sectors [(scenario1_name, 0); (py "bad", 1)] (image [] (fun a => a))
  = ([], snd (cells [(scenario1_name, 0); (py "bad", 1)])).
Proof. apply empty_image_plans_nothing. reflexivity. Defined.

(** * Further properties of the device sequences *)

Lemma nth_error_some_lt {A} (l : list A) n x :
  nth_error l n = Some x -> (n < length l)%nat.
Proof. intros H. apply nth_error_Some. congruence. Qed.

Lemma chunk_layout (T : nat) (payload : list Z) (k : nat) (b : list Z) :
  (0 < T)%nat ->
  nth_error (map (fun i => firstn T (skipn i payload))
                 (map (fun k => k * T)%nat
                      (seq 0 ((length payload + T - 1) / T)))) k = Some b ->
  (forall j x, nth_error b j = Some x ->
               nth_error payload (k * T + j)%nat = Some x) /\
  ((S k < (length payload + T - 1) / T)%nat -> length b = T).
Proof.
  intros HT Hb. rewrite map_map, nth_error_map in Hb.
  destruct (nth_error (seq 0 ((length payload + T - 1) / T)) k)
    as [k'|] eqn:Ek; [|discriminate].
  assert (Hk : (k < (length payload + T - 1) / T)%nat).
  { apply nth_error_some_lt in Ek. now rewrite length_seq in Ek. }
  rewrite nth_error_seq in Ek.
  replace (k <? (length payload + T - 1) / T)%nat
    with true in Ek by (symmetry; now apply Nat.ltb_lt).
  simpl in Ek. injection Ek as <-. injection Hb as <-. split.
  - intros j x Hj.
    assert (Hlt : (j < T)%nat).
    { apply nth_error_some_lt in Hj. rewrite length_firstn in Hj. lia. }
    rewrite nth_error_firstn in Hj.
    replace (j <? T)%nat with true in Hj
      by (symmetry; now apply Nat.ltb_lt).
    now rewrite nth_error_skipn in Hj.
  - intros Hs.
    pose proof (range_step_below (length payload) T (S k) HT Hs) as Hlt.
    rewrite length_firstn, length_skipn.
    rewrite Nat.mul_succ_l in Hlt. lia.
Qed.

(** X8.  The list of blocks has ceil(len/2048) entries; byte [j] of block
    [k] is byte [k*2048 + j] of the payload, and every block but the last
    has exactly 2048 bytes. *)
Theorem blocks_layout :
  forall (payload : list Z),
    length (blocks payload) = ((length payload + 2047) / 2048)%nat /\
    forall k b,
      nth_error (blocks payload) k = Some b ->
      (forall j x, nth_error b j = Some x ->
                   nth_error payload (k * 2048 + j)%nat = Some x) /\
      ((S k < length (blocks payload))%nat -> length b = 2048%nat).
Proof.
  intros payload.
  assert (Hlen : length (blocks payload)
                 = ((length payload + TRANSFER_SIZE - 1) / TRANSFER_SIZE)%nat).
  { unfold blocks, range_step. now rewrite !length_map, length_seq. }
  split.
  - rewrite Hlen. f_equal. unfold TRANSFER_SIZE. lia.
  - intros k b Hb. rewrite Hlen.
    exact (chunk_layout TRANSFER_SIZE payload k b TRANSFER_SIZE_pos Hb).
Qed.

Section MoreRuns.

Context {D : Type} (dev : DfuDevice D).

Lemma erase_app_run (l1 l2 : list Sector) (d : D) :
  erase dev (l1 ++ l2) d =
  match erase dev l1 d with
  | (inr _, t1, d1) =>
      match erase dev l2 d1 with (r, t2, d2) => (r, t1 ++ t2, d2) end
  | (inl e, t1, d1) => (inl e, t1, d1)
  end.
Proof.
  revert d; induction l1 as [|s l1 IH]; intros d.
  - simpl. now destruct (erase dev l2 d) as [[r t] d'].
  - simpl. unfold bind.
    destruct (set_alternate_safe dev (alt s) d) as [[[e|u] t0] d0];
      [reflexivity|].
    destruct (erase_page dev (addr s) d0) as [[[e|u1] t1] d1]; [reflexivity|].
    destruct (wait_while_state dev DFU_DOWNLOAD_BUSY _ d1)
      as [[[e|status] t2] d2]; [reflexivity|].
    destruct (state_eqb (st_state status) DFU_DOWNLOAD_IDLE);
      [|reflexivity].
    rewrite IH.
    destruct (erase dev l1 d2) as [[[e|u2] t3] d3]; [reflexivity|].
    destruct (erase dev l2 d3) as [[r t4] d4].
    now rewrite !app_assoc.
Qed.

Lemma bind_run {A B} (m : @M D A) (f : A -> @M D B) d :
  bind m f d =
  match m d with
  | (inr a, t, d') => match f a d' with (r, t', d'') => (r, t ++ t', d'') end
  | (inl e, t, d') => (inl e, t, d')
  end.
Proof. reflexivity. Qed.

Lemma flash_app_run (l1 l2 : list Sector) (d : D) :
  flash dev (l1 ++ l2) d =
  match flash dev l1 d with
  | (inr _, t1, d1) =>
      match flash dev l2 d1 with (r, t2, d2) => (r, t1 ++ t2, d2) end
  | (inl e, t1, d1) => (inl e, t1, d1)
  end.
Proof.
  revert d; induction l1 as [|s l1 IH]; intros d.
  - simpl. now destruct (flash dev l2 d) as [[r t] d'].
  - simpl. unfold bind.
    destruct (set_alternate_safe dev (alt s) d) as [[[e|u] t0] d0];
      [reflexivity|].
    destruct (set_address dev (addr s) d0) as [[[e|u1] t1] d1]; [reflexivity|].
    destruct (wait_while_state dev DFU_DOWNLOAD_BUSY None d1)
      as [[[e|status] t2] d2]; [reflexivity|].
    destruct (state_eqb (st_state status) DFU_DOWNLOAD_IDLE);
      [|reflexivity].
    destruct (write_blocks dev (enumerate (blocks (data s))) d2)
      as [[[e|u2] t3] d3]; [reflexivity|].
    rewrite IH.
    destruct (flash dev l1 d3) as [[[e|u3] t4] d4]; [reflexivity|].
    destruct (flash dev l2 d4) as [[r t5] d5].
    now rewrite !app_assoc.
Qed.

Lemma follows_members {A} script (r : Res A) t c :
  follows script r t -> In c (cmds t) ->
  is_recovery c = true \/ In c script.
Proof.
  intros [(rest & Hs) _] Hin.
  destruct (is_recovery c) eqn:E; [now left|right].
  rewrite Hs. apply in_or_app. left. unfold core.
  apply filter_In. split; [exact Hin|now rewrite E].
Qed.

Lemma written_app l1 l2 : written (l1 ++ l2) = written l1 ++ written l2.
Proof. unfold written. apply flat_map_app. Qed.

Lemma written_core t : written (core t) = written (cmds t).
Proof.
  unfold core. induction (cmds t) as [|c l IH]; [reflexivity|].
  simpl. destruct c as [| | |s timeout| | |]; simpl; try (now rewrite IH).
  destruct s; simpl; now rewrite IH.
Qed.

Lemma written_block_script l : written (block_script l) = concat (map snd l).
Proof.
  induction l as [|[n b] l IH]; [reflexivity|].
  unfold block_script in *. simpl. now rewrite IH.
Qed.

Lemma written_flash_script sectors :
  written (flash_script sectors) = concat (map data sectors).
Proof.
  induction sectors as [|s rest IH]; [reflexivity|].
  change (flash_script (s :: rest))
    with (([CSetAlternate (alt s); CGetState; CSetAddress (addr s);
            CWait DFU_DOWNLOAD_BUSY None]
           ++ block_script (enumerate (blocks (data s))))
          ++ flash_script rest).
  rewrite !written_app, IH, written_block_script, enumerate_snd, blocks_concat.
  reflexivity.
Qed.

End MoreRuns.

(** X9.  Erasing or flashing a concatenation of two sector lists is erasing
    or flashing the first list and then, if that returned, the second one
    from the device state reached; a failure in the first list leaves the
    second untouched. *)
Theorem erase_flash_concatenation :
  forall (D : Type) (dev : DfuDevice D) (l1 l2 : list Sector) (d : D),
    erase dev (l1 ++ l2) d =
      match erase dev l1 d with
      | (inr _, t1, d1) =>
          match erase dev l2 d1 with (r, t2, d2) => (r, t1 ++ t2, d2) end
      | (inl e, t1, d1) => (inl e, t1, d1)
      end /\
    flash dev (l1 ++ l2) d =
      match flash dev l1 d with
      | (inr _, t1, d1) =>
          match flash dev l2 d1 with (r, t2, d2) => (r, t1 ++ t2, d2) end
      | (inl e, t1, d1) => (inl e, t1, d1)
      end.
Proof.
  intros D dev l1 l2 d. split; [apply erase_app_run|apply flash_app_run].
Qed.

Lemma erase_flash_command_kinds :
  forall (D : Type) (dev : DfuDevice D) (sectors : list Sector) (d : D),
    (forall c, In c (cmds (snd (fst (erase dev sectors d)))) ->
       match c with CWrite _ _ | CSetAddress _ => False | _ => True end) /\
    (forall c, In c (cmds (snd (fst (flash dev sectors d)))) ->
       match c with CErase _ => False | _ => True end).
Proof.
  intros D dev sectors d. split; intros c Hin.
  - destruct (follows_members _ _ _ c (follows_erase dev sectors d) Hin)
      as [Hr|Hs].
    + destruct c; try exact I; discriminate.
    + unfold erase_script in Hs. apply in_flat_map in Hs as (s & _ & Hs).
      simpl in Hs. destruct Hs as [<-|[<-|[<-|[<-|[]]]]]; exact I.
  - destruct (follows_members _ _ _ c (follows_flash dev sectors d) Hin)
      as [Hr|Hs].
    + destruct c; try exact I; discriminate.
    + unfold flash_script in Hs. apply in_flat_map in Hs as (s & _ & Hs).
      apply in_app_or in Hs as [Hs|Hs].
      * simpl in Hs. destruct Hs as [<-|[<-|[<-|[<-|[]]]]]; exact I.
      * unfold block_script in Hs. apply in_flat_map in Hs as (nb & _ & Hs).
        simpl in Hs. destruct Hs as [<-|[<-|[]]]; exact I.
Qed.

(** X10.  [erase] never sets an address and never writes a block; [flash]
    never erases: whatever the device answers, these commands do not occur
    in their transcripts. *)
Theorem erase_never_writes_flash_never_erases :
  forall (D : Type) (dev : DfuDevice D) (sectors : list Sector) (d : D),
    (forall c, In c (cmds (snd (fst (erase dev sectors d)))) ->
       match c with CWrite _ _ | CSetAddress _ => False | _ => True end) /\
    (forall c, In c (cmds (snd (fst (flash dev sectors d)))) ->
       match c with CErase _ => False | _ => True end).
Proof. exact erase_flash_command_kinds. Qed.

Lemma flash_written :
  forall (D : Type) (dev : DfuDevice D) (sectors : list Sector) (d : D),
    fst (fst (flash dev sectors d)) = inr tt ->
    written (cmds (snd (fst (flash dev sectors d)))) = concat (map data sectors).
Proof.
  intros D dev sectors d Hr.
  destruct (follows_flash dev sectors d) as [_ Hall].
  rewrite <- written_core, (Hall tt Hr). apply written_flash_script.
Qed.

(** X11.  When [flash] returns, the blocks it wrote, taken together in the
    order of the writes, are the payloads of the sectors in order: every
    payload byte was sent exactly once. *)
Theorem flash_writes_every_payload_byte :
  forall (D : Type) (dev : DfuDevice D) (sectors : list Sector) (d : D),
    fst (fst (flash dev sectors d)) = inr tt ->
    written (cmds (snd (fst (flash dev sectors d)))) = concat (map data sectors).
Proof. exact flash_written. Qed.

Lemma flash_writes_every_payload_byte_witness :
  written (cmds (snd (fst (flash sim_device three_sectors
                                 {| sim_state := DFU_ERROR; sim_waits := [] |}))))
  = concat (map data three_sectors).
Proof.
  apply flash_writes_every_payload_byte. reflexivity.
Defined.

(** * Properties of [jump_to_application] and of the main sequence *)

Lemma state_eqb_neq a b : state_eqb a b = false <-> a <> b.
Proof.
  split.
  - intros H Heq. apply state_eqb_eq in Heq. congruence.
  - intros H. destruct (state_eqb a b) eqn:E; [|reflexivity].
    apply state_eqb_eq in E. contradiction.
Qed.

Ltac in_cases H :=
  simpl in H;
  repeat match type of H with
         | _ \/ _ => destruct H as [H|H]; [try discriminate H|]
         | False => destruct H
         end.

Lemma jump_facts :
  forall (D : Type) (devl : DfuDeviceL D) (address : Z) (d : D),
    let r := fst (fst (jump_to_application devl address d)) in
    let steps := snd (fst (jump_to_application devl address d)) in
    (length (filter is_leave steps) <= 1)%nat /\
    (forall a, In (StepLeave a) steps ->
       exists st rest,
         steps = [StepCall (CSetAddress address, Returned);
                  StepCall (CWait DFU_DOWNLOAD_BUSY None, ReturnedStatus st);
                  StepLeave a] ++ rest /\
         st_state st = DFU_DOWNLOAD_IDLE) /\
    (r = inr tt <->
     exists st1 st2,
       steps = [StepCall (CSetAddress address, Returned);
                StepCall (CWait DFU_DOWNLOAD_BUSY None, ReturnedStatus st1);
                StepLeave Returned;
                StepCall (CWait DFU_MANIFEST_SYNC None, ReturnedStatus st2)] /\
       st_state st1 = DFU_DOWNLOAD_IDLE /\ st_state st2 = DFU_MANIFEST) /\
    (forall st,
       In (StepCall (CWait DFU_DOWNLOAD_BUSY None, ReturnedStatus st)) steps ->
       st_state st <> DFU_DOWNLOAD_IDLE ->
       r = inl (JumpError (st_state st)) /\ filter is_leave steps = []) /\
    (forall st,
       In (StepCall (CWait DFU_MANIFEST_SYNC None, ReturnedStatus st)) steps ->
       st_state st <> DFU_MANIFEST ->
       r = inl (JumpError (st_state st))).
Proof.
  intros D devl address d.
  unfold jump_to_application, bindT, liftT, leave, raiseT, retT,
    set_address, wait_while_state, call.
  destruct (dev_set_address (dfu devl) address d) as [[e|[]] d1]; simpl.
  { split; [lia|]. split; [intros a H; in_cases H|].
    split; [split; [discriminate|intros (? & ? & H & _); discriminate]|].
    split; intros st H; in_cases H. }
  destruct (dev_wait_while_state (dfu devl) DFU_DOWNLOAD_BUSY None d1)
    as [[e|st1] d2]; simpl.
  { split; [lia|]. split; [intros a H; in_cases H|].
    split; [split; [discriminate|intros (? & ? & H & _); discriminate]|].
    split; intros st H; in_cases H. }
  destruct (state_eqb (st_state st1) DFU_DOWNLOAD_IDLE) eqn:E1; simpl.
  2:{ apply state_eqb_neq in E1.
      split; [lia|]. split; [intros a H; in_cases H|].
      split; [split; [discriminate|intros (? & ? & H & _); discriminate]|].
      split; intros st H; in_cases H.
      injection H as <-. intros _. now split. }
  apply state_eqb_eq in E1.
  destruct (dev_leave devl d2) as [[e|u] d3]; simpl.
  { split; [lia|]. split.
    - intros a H. in_cases H. injection H as <-.
      exists st1, []. now split.
    - split; [split; [discriminate|intros (? & ? & H & _); discriminate]|].
      split; intros st H; in_cases H.
      injection H as <-. intros Hn. contradiction. }
  destruct (dev_wait_while_state (dfu devl) DFU_MANIFEST_SYNC None d3)
    as [[e|st2] d4]; simpl.
  { split; [lia|]. split.
    - intros a H. in_cases H. injection H as <-.
      eexists st1, _. split; [reflexivity|exact E1].
    - split; [split; [discriminate|intros (? & ? & H & _); discriminate]|].
      split; intros st H; in_cases H.
      injection H as <-. intros Hn. contradiction. }
  destruct (state_eqb (st_state st2) DFU_MANIFEST) eqn:E2; simpl.
  - apply state_eqb_eq in E2. split; [lia|]. split.
    + intros a H. in_cases H. injection H as <-.
      eexists st1, _. split; [reflexivity|exact E1].
    + split; [split; [intros _; now exists st1, st2|reflexivity]|].
      split; intros st H; in_cases H.
      * injection H as <-. intros Hn. contradiction.
      * injection H as <-. intros Hn. contradiction.
  - apply state_eqb_neq in E2. split; [lia|]. split.
    + intros a H. in_cases H. injection H as <-.
      eexists st1, _. split; [reflexivity|exact E1].
    + split.
      * split; [discriminate|].
        intros (x1 & x2 & H & _ & H2). injection H as _ <-. contradiction.
      * split; intros st H; in_cases H.
        -- injection H as <-. intros Hn. contradiction.
        -- injection H as <-. intros _. reflexivity.
Qed.

(** X12.  [jump_to_application] calls [leave] at most once, and only after
    set_address returned and the wait on DOWNLOAD_BUSY ended in
    DOWNLOAD_IDLE; otherwise it raises with the state observed and [leave]
    is not called.  It returns exactly when the wait on MANIFEST_SYNC that
    follows [leave] ends in MANIFEST; any other final state is raised. *)
Theorem jump_to_application_outcomes :
  forall (D : Type) (devl : DfuDeviceL D) (address : Z) (d : D),
    let r := fst (fst (jump_to_application devl address d)) in
    let steps := snd (fst (jump_to_application devl address d)) in
    (length (filter is_leave steps) <= 1)%nat /\
    (forall a, In (StepLeave a) steps ->
       exists st rest,
         steps = [StepCall (CSetAddress address, Returned);
                  StepCall (CWait DFU_DOWNLOAD_BUSY None, ReturnedStatus st);
                  StepLeave a] ++ rest /\
         st_state st = DFU_DOWNLOAD_IDLE) /\
    (r = inr tt <->
     exists st1 st2,
       steps = [StepCall (CSetAddress address, Returned);
                StepCall (CWait DFU_DOWNLOAD_BUSY None, ReturnedStatus st1);
                StepLeave Returned;
                StepCall (CWait DFU_MANIFEST_SYNC None, ReturnedStatus st2)] /\
       st_state st1 = DFU_DOWNLOAD_IDLE /\ st_state st2 = DFU_MANIFEST) /\
    (forall st,
       In (StepCall (CWait DFU_DOWNLOAD_BUSY None, ReturnedStatus st)) steps ->
       st_state st <> DFU_DOWNLOAD_IDLE ->
       r = inl (JumpError (st_state st)) /\ filter is_leave steps = []) /\
    (forall st,
       In (StepCall (CWait DFU_MANIFEST_SYNC None, ReturnedStatus st)) steps ->
       st_state st <> DFU_MANIFEST ->
       r = inl (JumpError (st_state st))).
Proof. exact jump_facts. Qed.

Lemma app_split_notin {A} (l1 l2 P Q : list A) (x : A) :
  l1 ++ x :: l2 = P ++ Q -> ~ In x P ->
  exists Q1, l1 = P ++ Q1 /\ Q = Q1 ++ x :: l2.
Proof.
  revert l1; induction P as [|p P IH]; intros l1 H Hn.
  - exists l1. now split.
  - destruct l1 as [|y l1].
    + simpl in H. injection H as -> _. elim Hn. now left.
    + simpl in H. injection H as -> H.
      destruct (IH l1 H) as (Q1 & -> & ->); [intros Hp; apply Hn; now right|].
      now exists Q1.
Qed.

Lemma calls_map t : calls (map StepCall t) = t.
Proof. induction t as [|ev t IH]; [reflexivity|]. simpl. now rewrite IH. Qed.

Lemma calls_app l1 l2 : calls (l1 ++ l2) = calls l1 ++ calls l2.
Proof. unfold calls. apply flat_map_app. Qed.

Lemma leave_not_in_calls a t : ~ In (StepLeave a) (map StepCall t).
Proof. intros H. apply in_map_iff in H as (ev & H & _). discriminate. Qed.

Lemma load_sectors_ok alternates h :
  snd (load_sectors alternates h) = None <->
  Forall (fun p => wf_descriptor (fst p)) alternates.
Proof.
  induction alternates as [|[name al] rest IH]; simpl.
  - split; [constructor|reflexivity].
  - assert (Hwf : forall l a y, split "/" name = [l; a; y] ->
                    wf_descriptor name ->
                    int0 a <> None /\ Forall wf_sector (split "," y)).
    { intros l a y Hs (l' & a' & y' & Hs' & Ha & Hf).
      rewrite Hs in Hs'. injection Hs' as <- <- <-. now split. }
    destruct (split "/" name) as [|label [|a [|layout [|x l]]]] eqn:Es;
      try (split; [discriminate|];
           intros H; inversion H as [|? ? (l' & a' & y' & Hs' & _) _]; subst;
           simpl in Hs'; rewrite Es in Hs'; discriminate).
    destruct (int0 a) as [a0|] eqn:Ea.
    + pose proof (layout_loop_ok h al (split "," layout) a0) as Hl.
      destruct (layout_loop h al (split "," layout) a0) as [ys [e|]];
        simpl in *.
      * split; [discriminate|]. intros H. inversion H as [|? ? Hd _]; subst.
        destruct (Hwf _ _ _ eq_refl Hd) as [_ Hf]. apply Hl in Hf.
        discriminate.
      * destruct (load_sectors rest h) as [zs r]. simpl in *. rewrite IH.
        split.
        -- intros H. constructor; [|exact H]. exists label, a, layout.
           split; [exact Es|]. split; [congruence|]. now apply Hl.
        -- intros H. now inversion H.
    + split; [discriminate|]. intros H. inversion H as [|? ? Hd _]; subst.
      destruct (Hwf _ _ _ eq_refl Hd) as [Hn _]. now elim Hn.
Qed.

Section MainRuns.

Context {D : Type} (devl : DfuDeviceL D).

Lemma main_sequence_run sectors d :
  main_sequence devl sectors d =
  match erase (dfu devl) sectors d with
  | (inl e, t1, d1) => (inl (FromDevice e), map StepCall t1, d1)
  | (inr _, t1, d1) =>
      match flash (dfu devl) sectors d1 with
      | (inl e, t2, d2) =>
          (inl (FromDevice e), map StepCall t1 ++ map StepCall t2, d2)
      | (inr _, t2, d2) =>
          match jump_to_application devl 134217728 d2 with
          | (r, t3, d3) => (r, map StepCall t1 ++ map StepCall t2 ++ t3, d3)
          end
      end
  end.
Proof.
  unfold main_sequence, bindT, liftT.
  destruct (erase (dfu devl) sectors d) as [[[e|u] t1] d1]; [reflexivity|].
  destruct (flash (dfu devl) sectors d1) as [[[e|u'] t2] d2]; [reflexivity|].
  now destruct (jump_to_application devl 134217728 d2) as [[r t3] d3].
Qed.

Lemma jump_command_kinds address d ev :
  In (StepCall ev) (snd (fst (jump_to_application devl address d))) ->
  match fst ev with CSetAddress _ | CWait _ _ => True | _ => False end.
Proof.
  unfold jump_to_application, bindT, liftT, leave, raiseT, retT,
    set_address, wait_while_state, call.
  destruct (dev_set_address (dfu devl) address d) as [[e|[]] d1]; simpl;
    [intros H; in_cases H; now injection H as <-|].
  destruct (dev_wait_while_state (dfu devl) DFU_DOWNLOAD_BUSY None d1)
    as [[e|st1] d2]; simpl;
    [intros H; in_cases H; try (now injection H as <-)|].
  destruct (state_eqb (st_state st1) DFU_DOWNLOAD_IDLE); simpl;
    [|intros H; in_cases H; try (now injection H as <-)].
  destruct (dev_leave devl d2) as [[e|u] d3]; simpl;
    [intros H; in_cases H; try (now injection H as <-)|].
  destruct (dev_wait_while_state (dfu devl) DFU_MANIFEST_SYNC None d3)
    as [[e|st2] d4]; simpl;
    [intros H; in_cases H; try (now injection H as <-)|].
  destruct (state_eqb (st_state st2) DFU_MANIFEST); simpl;
    intros H; in_cases H; try (now injection H as <-).
Qed.

End MainRuns.

(** X13.  The main program reaches the device sequence exactly when every
    descriptor of the device is well formed: then it runs erase, flash and
    the jump on all the yielded sectors; otherwise it ends with the
    exception of the planner before any erase, even if sectors of earlier
    descriptors had been yielded. *)
Theorem main_runs_iff_descriptors_well_formed :
  forall (D : Type) (devl : DfuDeviceL D) (alternates : list (str * Z))
         (h : HexFile) (d : D),
    (Forall (fun p => wf_descriptor (fst p)) alternates ->
     main devl alternates h d =
     inr (main_sequence devl (fst (load_sectors alternates h)) d)) /\
    (~ Forall (fun p => wf_descriptor (fst p)) alternates ->
     exists e, snd (load_sectors alternates h) = Some e /\
               main devl alternates h d = inl e).
Proof.
  intros D devl alternates h d. unfold main.
  pose proof (load_sectors_ok alternates h) as Hok.
  destruct (load_sectors alternates h) as [sectors [e|]]; simpl in *.
  - split.
    + intros H. apply Hok in H. discriminate.
    + intros _. now exists e.
  - split; [reflexivity|]. intros H. elim H. now apply Hok.
Qed.

Lemma main_runs_iff_descriptors_well_formed_witness :
  main sim_device_l [(py "@A/16/01*008 g", 0); (py "@B/64/01*008", 1)]
       (image [(16, 20)] (fun a => a)) good_run
  = inl (KeyError "0") /\
  fst (load_sectors [(py "@A/16/01*008 g", 0); (py "@B/64/01*008", 1)]
                    (image [(16, 20)] (fun a => a)))
  = [{| alt := 0; addr := 16; data := [16; 17; 18; 19; 255; 255; 255; 255] |}].
Proof.
  split; [|vm_compute; reflexivity].
  destruct (main_runs_iff_descriptors_well_formed Sim sim_device_l
              [(py "@A/16/01*008 g", 0); (py "@B/64/01*008", 1)]
              (image [(16, 20)] (fun a => a)) good_run) as [_ H].
  destruct H as (e & He & Hm).
  - intros Hf. apply load_sectors_ok with (h := image [(16, 20)] (fun a => a)) in Hf.
    discriminate.
  - rewrite Hm. f_equal. vm_compute in He. congruence.
Defined.

(** X14.  The main sequence erases before it writes: when a block is
    written, the erase phase is over, it has issued the whole erase sequence
    of all the sectors without a failure, and no erase command is issued
    from then on. *)
Theorem main_writes_only_after_all_erases :
  forall (D : Type) (devl : DfuDeviceL D) (sectors : list Sector) (d : D)
         (pre post : list Step) (n : nat) (b : list Z) (a : Answer),
    snd (fst (main_sequence devl sectors d))
      = pre ++ StepCall (CWrite n b, a) :: post ->
    exists t1 pre2,
      pre = map StepCall t1 ++ pre2 /\
      core t1 = erase_script sectors /\ no_failure t1 /\
      forall x a', ~ In (StepCall (CErase x, a')) (pre2 ++ post).
Proof.
  intros D devl sectors d pre post n b a Hs.
  rewrite main_sequence_run in Hs.
  pose proof (erase_flash_command_kinds D (dfu devl) sectors d) as [Hke _].
  pose proof (follows_erase (dfu devl) sectors d) as [_ Hfe].
  pose proof (clean_erase (dfu devl) sectors d) as Hce.
  destruct (erase (dfu devl) sectors d) as [[[e|u] t1] d1]; simpl in *.
  - exfalso.
    assert (Hin : In (StepCall (CWrite n b, a)) (map StepCall t1))
      by (rewrite Hs; apply in_elt).
    apply in_map_iff in Hin as (ev & Hev & Hin). injection Hev as ->.
    apply (Hke (CWrite n b)). unfold cmds. apply in_map_iff.
    now exists (CWrite n b, a).
  - pose proof (erase_flash_command_kinds D (dfu devl) sectors d1) as [_ Hkf].
    assert (Hnot : ~ In (StepCall (CWrite n b, a)) (map StepCall t1)).
    { intros Hin. apply in_map_iff in Hin as (ev & Hev & Hin).
      injection Hev as ->.
      apply (Hke (CWrite n b)). unfold cmds. apply in_map_iff.
      now exists (CWrite n b, a). }
    assert (Hrest : exists R, snd (fst
        (match flash (dfu devl) sectors d1 with
         | (inl e, t2, d2) =>
             (@inl ToolExn unit (FromDevice e),
              map StepCall t1 ++ map StepCall t2, d2)
         | (inr _, t2, d2) =>
             match jump_to_application devl 134217728 d2 with
             | (r, t3, d3) =>
                 (r, map StepCall t1 ++ map StepCall t2 ++ t3, d3)
             end
         end)) = map StepCall t1 ++ R /\
        forall x a', ~ In (StepCall (CErase x, a')) R).
    { destruct (flash (dfu devl) sectors d1) as [[[e|u'] t2] d2]; simpl in *.
      - exists (map StepCall t2). split; [reflexivity|].
        intros x a' Hin. apply in_map_iff in Hin as (ev & Hev & Hin).
        injection Hev as ->. apply (Hkf (CErase x)). unfold cmds.
        apply in_map_iff. now exists (CErase x, a').
      - pose proof (jump_command_kinds devl 134217728 d2) as Hkj.
        destruct (jump_to_application devl 134217728 d2) as [[r t3] d3].
        simpl in *. exists (map StepCall t2 ++ t3). split; [reflexivity|].
        intros x a' Hin. apply in_app_or in Hin as [Hin|Hin].
        + apply in_map_iff in Hin as (ev & Hev & Hin).
          injection Hev as ->. apply (Hkf (CErase x)). unfold cmds.
          apply in_map_iff. now exists (CErase x, a').
        + exact (Hkj _ Hin). }
    destruct Hrest as (R & HR & Hne). rewrite HR in Hs. symmetry in Hs.
    destruct (app_split_notin _ _ _ _ _ Hs Hnot) as (pre2 & -> & ->).
    exists t1, pre2. split; [reflexivity|].
    split; [exact (Hfe u eq_refl)|]. split; [exact Hce|].
    intros x a' Hin. apply (Hne x a').
    apply in_app_or in Hin as [Hin|Hin]; apply in_or_app;
      [now left|right; now right].
Qed.

Lemma main_writes_only_after_all_erases_witness :
  exists t1 pre2,
    small_run_before_write = map StepCall t1 ++ pre2 /\
    core t1 = erase_script small_sector /\ no_failure t1 /\
    forall x a', ~ In (StepCall (CErase x, a')) (pre2 ++ small_run_after_write).
Proof.
  apply (main_writes_only_after_all_erases Sim sim_device_l small_sector
           good_run small_run_before_write small_run_after_write
           0%nat [1; 2; 3; 4] Returned).
  reflexivity.
Defined.

Section MainFacts.

Context {D : Type} (devl : DfuDeviceL D).

Lemma main_leave_facts sectors d a :
  In (StepLeave a) (snd (fst (main_sequence devl sectors d))) ->
  exists t1 t2 st rest,
    snd (fst (main_sequence devl sectors d))
      = map StepCall t1 ++ map StepCall t2
        ++ [StepCall (CSetAddress 134217728, Returned);
            StepCall (CWait DFU_DOWNLOAD_BUSY None, ReturnedStatus st);
            StepLeave a] ++ rest /\
    core t1 = erase_script sectors /\
    core t2 = flash_script sectors /\
    no_failure (t1 ++ t2) /\
    written (cmds t2) = concat (map data sectors) /\
    st_state st = DFU_DOWNLOAD_IDLE /\
    (fst (fst (main_sequence devl sectors d)) = inr tt ->
     a = Returned /\
     exists st2, rest = [StepCall (CWait DFU_MANIFEST_SYNC None,
                                  ReturnedStatus st2)] /\
                 st_state st2 = DFU_MANIFEST).
Proof.
  rewrite main_sequence_run.
  pose proof (follows_erase (dfu devl) sectors d) as [_ Hfe].
  pose proof (clean_erase (dfu devl) sectors d) as Hce.
  destruct (erase (dfu devl) sectors d) as [[[e|u] t1] d1]; simpl in *.
  { intros H. now apply leave_not_in_calls in H. }
  pose proof (follows_flash (dfu devl) sectors d1) as [_ Hff].
  pose proof (clean_flash (dfu devl) sectors d1) as Hcf.
  pose proof (flash_written D (dfu devl) sectors d1) as Hw.
  destruct (flash (dfu devl) sectors d1) as [[[e|u'] t2] d2]; simpl in *.
  { intros H. apply in_app_or in H as [H|H];
      now apply leave_not_in_calls in H. }
  pose proof (jump_facts D devl 134217728 d2) as (_ & Hl & Hr & _).
  destruct (jump_to_application devl 134217728 d2) as [[r t3] d3].
  simpl in *. intros H.
  apply in_app_or in H as [H|H]; [now apply leave_not_in_calls in H|].
  apply in_app_or in H as [H|H]; [now apply leave_not_in_calls in H|].
  destruct (Hl a H) as (st & rest & Ht3 & Hst).
  exists t1, t2, st, rest. split; [now rewrite Ht3|].
  split; [exact (Hfe u eq_refl)|]. split; [exact (Hff u' eq_refl)|].
  split; [now apply Forall_app|].
  split; [destruct u'; exact (Hw eq_refl)|]. split; [exact Hst|].
  intros Hrt. apply Hr in Hrt as (st1 & st2 & Heq & _ & H2).
  rewrite Ht3 in Heq. injection Heq as _ -> ->. split; [reflexivity|].
  now exists st2.
Qed.

End MainFacts.

(** X15.  [leave] is reached only after a complete, failure-free erase and
    flash: when the main sequence calls [leave], the steps before it are the
    whole erase sequence, the whole flash sequence, which has sent every
    payload byte, and the set_address to 0x08000000 with its wait ended in
    DOWNLOAD_IDLE.  When the main sequence returns, [leave] has returned and
    the only step after it is the wait on MANIFEST_SYNC, ended in
    MANIFEST. *)
Theorem main_leave_only_after_full_flash :
  forall (D : Type) (devl : DfuDeviceL D) (sectors : list Sector) (d : D)
         (a : Answer),
    In (StepLeave a) (snd (fst (main_sequence devl sectors d))) ->
    exists t1 t2 st rest,
      snd (fst (main_sequence devl sectors d))
        = map StepCall t1 ++ map StepCall t2
          ++ [StepCall (CSetAddress 134217728, Returned);
              StepCall (CWait DFU_DOWNLOAD_BUSY None, ReturnedStatus st);
              StepLeave a] ++ rest /\
      core t1 = erase_script sectors /\
      core t2 = flash_script sectors /\
      no_failure (t1 ++ t2) /\
      written (cmds t2) = concat (map data sectors) /\
      st_state st = DFU_DOWNLOAD_IDLE /\
      (fst (fst (main_sequence devl sectors d)) = inr tt ->
       a = Returned /\
       exists st2, rest = [StepCall (CWait DFU_MANIFEST_SYNC None,
                                    ReturnedStatus st2)] /\
                   st_state st2 = DFU_MANIFEST).
Proof. intros D devl sectors d a. apply main_leave_facts. Qed.

Lemma main_leave_only_after_full_flash_witness :
  exists t1 t2 st rest,
    snd (fst (main_sequence sim_device_l small_sector good_run))
      = map StepCall t1 ++ map StepCall t2
        ++ [StepCall (CSetAddress 134217728, Returned);
            StepCall (CWait DFU_DOWNLOAD_BUSY None, ReturnedStatus st);
            StepLeave Returned] ++ rest /\
    core t1 = erase_script small_sector /\
    core t2 = flash_script small_sector /\
    no_failure (t1 ++ t2) /\
    written (cmds t2) = concat (map data small_sector) /\
    st_state st = DFU_DOWNLOAD_IDLE /\
    (fst (fst (main_sequence sim_device_l small_sector good_run)) = inr tt ->
     Returned = Returned /\
     exists st2, rest = [StepCall (CWait DFU_MANIFEST_SYNC None,
                                  ReturnedStatus st2)] /\
                 st_state st2 = DFU_MANIFEST).
Proof.
  apply (main_leave_only_after_full_flash Sim sim_device_l small_sector
           good_run Returned).
  vm_compute. do 12 right. left. reflexivity.
Defined.

(** X16.  The main sequence never returns without the jump: a failure of
    [erase] or [flash] is its result, and then neither a later phase nor
    [leave] is entered; it returns only if [leave] was called. *)
Theorem main_failure_stops_the_sequence :
  forall (D : Type) (devl : DfuDeviceL D) (sectors : list Sector) (d : D),
    let r := fst (fst (main_sequence devl sectors d)) in
    let steps := snd (fst (main_sequence devl sectors d)) in
    (forall e t1 d1, erase (dfu devl) sectors d = (inl e, t1, d1) ->
       r = inl (FromDevice e) /\ steps = map StepCall t1) /\
    (forall t1 d1 e t2 d2,
       erase (dfu devl) sectors d = (inr tt, t1, d1) ->
       flash (dfu devl) sectors d1 = (inl e, t2, d2) ->
       r = inl (FromDevice e) /\ steps = map StepCall (t1 ++ t2)) /\
    (r = inr tt -> In (StepLeave Returned) steps).
Proof.
  intros D devl sectors d. cbv zeta. rewrite main_sequence_run. split; [|split].
  - intros e t1 d1 ->. now split.
  - intros t1 d1 e t2 d2 -> ->. split; [reflexivity|]. simpl.
    now rewrite map_app.
  - destruct (erase (dfu devl) sectors d) as [[[e|u] t1] d1];
      [discriminate|].
    destruct (flash (dfu devl) sectors d1) as [[[e|u'] t2] d2];
      [discriminate|].
    pose proof (jump_facts D devl 134217728 d2) as (_ & _ & Hr & _).
    destruct (jump_to_application devl 134217728 d2) as [[r t3] d3].
    simpl in *. intros Hrt. apply Hr in Hrt as (st1 & st2 & -> & _).
    apply in_or_app. right. apply in_or_app. right.
    right. right. now left.
Qed.

Lemma blocks_layout_witness :
  nth_error (List.repeat 7 2048 ++ [1; 2; 3]) (1 * 2048 + 2)%nat = Some 3 /\
  length (blocks (List.repeat 7 2048 ++ [1; 2; 3])) = 2%nat.
Proof.
  destruct (blocks_layout (List.repeat 7 2048 ++ [1; 2; 3])) as [Hn H].
  split.
  - assert (Hb : nth_error (blocks (List.repeat 7 2048 ++ [1; 2; 3])) 1
                 = Some [1; 2; 3]) by (vm_compute; reflexivity).
    destruct (H 1%nat [1; 2; 3] Hb) as [Hj _].
    apply (Hj 2%nat 3). reflexivity.
  - rewrite Hn. vm_compute. reflexivity.
Defined.

Lemma erase_never_writes_flash_never_erases_witness :
  match CErase 80 with CWrite _ _ | CSetAddress _ => False | _ => True end /\
  match CWrite 0 (List.repeat 255 64) with CErase _ => False | _ => True end.
Proof.
  destruct (erase_never_writes_flash_never_erases Sim sim_device
              three_sectors timeout_on_second) as [He Hf].
  split.
  - apply (He (CErase 80)). vm_compute. do 6 right. left. reflexivity.
  - apply (Hf (CWrite 0 (List.repeat 255 64))). vm_compute.
    do 4 right. left. reflexivity.
Defined.

Lemma jump_to_application_outcomes_witness :
  exists st1 st2,
    snd (fst (jump_to_application sim_device_l 134217728 ready_to_jump))
    = [StepCall (CSetAddress 134217728, Returned);
       StepCall (CWait DFU_DOWNLOAD_BUSY None, ReturnedStatus st1);
       StepLeave Returned;
       StepCall (CWait DFU_MANIFEST_SYNC None, ReturnedStatus st2)] /\
    st_state st1 = DFU_DOWNLOAD_IDLE /\ st_state st2 = DFU_MANIFEST.
Proof.
  destruct (jump_to_application_outcomes Sim sim_device_l 134217728
              ready_to_jump) as (_ & _ & [H _] & _).
  apply H. reflexivity.
Defined.

Lemma main_failure_stops_the_sequence_witness :
  In (StepLeave Returned)
     (snd (fst (main_sequence sim_device_l small_sector good_run))) /\
  fst (fst (main_sequence sim_device_l three_sectors timeout_on_second))
  = inl (FromDevice TimeoutError).
Proof.
  split.
  - destruct (main_failure_stops_the_sequence Sim sim_device_l small_sector
                good_run) as (_ & _ & H).
    apply H. reflexivity.
  - destruct (main_failure_stops_the_sequence Sim sim_device_l three_sectors
                timeout_on_second) as (H & _).
    eapply H. vm_compute. reflexivity.
Defined.
